(** * OHADEV service worker: offline caching policy

    A shallow embedding of the two service-worker scripts of the site
    ([src/sw.js] and its earlier revision [src/unnamed/part_000]) and the
    properties of their caching policy.

    The scripts are event listeners over two platform services: the named
    cache storage ([caches]) and the network ([fetch]).  The storage is an
    explicit state threaded through every listener, every platform call is
    recorded in a trace, and a promise that waits for the network is a
    continuation that runs when the network settles. *)

From Stdlib Require Import String Ascii List ZArith Bool Lia.
Import ListNotations.
Local Open Scope string_scope.
Local Open Scope list_scope.

(** ** Requests, responses, errors *)

(** A parsed URL, as [new URL(event.request.url)] exposes it.  The query
    string is part of the identity of a request. *)
Record URL : Type := mkURL {
  origin : string;
  pathname : string;
  search : string
}.

Definition URL_eqb (a b : URL) : bool :=
  String.eqb (origin a) (origin b)
  && String.eqb (pathname a) (pathname b)
  && String.eqb (search a) (search b).

(** The fields of [event.request] the listeners read. *)
Record Request : Type := mkRequest {
  method : string;
  url : URL;
  mode : string;
  destination : string
}.

(** A response snapshot. [clone()] of a response is the same snapshot. *)
Record Response : Type := mkResponse {
  status : Z;
  headers : list (string * string);
  body : string
}.

Inductive Error : Type :=
| TypeError (message : string).

(** How a promise settles. *)
Inductive Settled (A : Type) : Type :=
| Fulfilled (value : A)
| Rejected (reason : Error).
Arguments Fulfilled {A} value.
Arguments Rejected {A} reason.

(** What the network answers to a GET of a URL: a response of any status,
    or no response at all. *)
Inductive FetchResult : Type :=
| Arrived (response : Response)
| Unreachable (reason : Error).

Definition Network : Type := URL -> FetchResult.

Definition settled_of (r : FetchResult) : Settled Response :=
  match r with
  | Arrived response => Fulfilled response
  | Unreachable reason => Rejected reason
  end.

(** ** The named cache storage

    The storage belongs to the platform, not to the scripts.  It is a
    key-value mapping per named store: one store is an ordered list of
    entries with at most one entry per key, and the storage is the list of
    the named stores in creation order. *)

Definition Cache : Type := list (URL * Response).
Definition CacheStorage : Type := list (string * Cache).

Fixpoint entry_match (c : Cache) (key : URL) : option Response :=
  match c with
  | [] => None
  | (k, r) :: rest => if URL_eqb k key then Some r else entry_match rest key
  end.

Definition entry_put (key : URL) (r : Response) (c : Cache) : Cache :=
  filter (fun e => negb (URL_eqb (fst e) key)) c ++ [(key, r)].

Fixpoint store_find (s : CacheStorage) (name : string) : option Cache :=
  match s with
  | [] => None
  | (n, c) :: rest => if String.eqb n name then Some c else store_find rest name
  end.

Definition has_store (s : CacheStorage) (name : string) : bool :=
  match store_find s name with Some _ => true | None => false end.

Fixpoint store_update (s : CacheStorage) (name : string) (f : Cache -> Cache)
  : CacheStorage :=
  match s with
  | [] => []
  | (n, c) :: rest =>
      if String.eqb n name then (n, f c) :: rest
      else (n, c) :: store_update rest name f
  end.

Definition store_names (s : CacheStorage) : list string := map fst s.

(** The entry a named store holds for a key, if the store exists. *)
Definition entry_of (s : CacheStorage) (name : string) (key : URL)
  : option Response :=
  match store_find s name with
  | Some c => entry_match c key
  | None => None
  end.

(** Store names are unique in a storage the platform built. *)
Definition wf (s : CacheStorage) : Prop := NoDup (store_names s).

(** ** Platform calls, with their trace *)

Inductive Event : Type :=
| CachesOpen (name : string)
| CachesKeys
| CachesDelete (name : string)
| CacheMatch (name : string) (key : URL)
| CachePut (name : string) (key : URL) (r : Response)
| CachePutRefused (name : string) (key : URL) (r : Response)
| FetchStart (key : URL)
| FetchSettle (key : URL) (r : FetchResult)
| RespondWith (v : Settled (option Response)).

Record Run (A : Type) : Type := mkRun {
  result : A;
  storage : CacheStorage;
  trace : list Event
}.
Arguments mkRun {A} result storage trace.
Arguments result {A} r.
Arguments storage {A} r.
Arguments trace {A} r.

(** A computation over the storage that records the platform calls it makes. *)
Definition M (A : Type) : Type := CacheStorage -> Run A.

Definition ret {A : Type} (a : A) : M A := fun s => mkRun a s [].

Definition bind {A B : Type} (m : M A) (f : A -> M B) : M B :=
  fun s =>
    match m s with
    | mkRun a s1 t1 =>
        match f a s1 with
        | mkRun b s2 t2 => mkRun b s2 (t1 ++ t2)
        end
    end.

Declare Scope sw_scope.
Delimit Scope sw_scope with sw.
Notation "x <- m ;; k" := (bind m (fun x => k))
  (at level 61, m at next level, right associativity) : sw_scope.
Notation "m ;; k" := (bind m (fun _ => k))
  (at level 61, right associativity) : sw_scope.
Local Open Scope sw_scope.

(** [caches.open(name)]: the store of that name, created empty when absent.
    The handle it returns is the name. *)
Definition open_or_create (s : CacheStorage) (name : string) : CacheStorage :=
  if has_store s name then s else s ++ [(name, [])].

Definition caches_open (name : string) : M string :=
  fun s => mkRun name (open_or_create s name) [CachesOpen name].

(** [caches.keys()]: the names of the stores, in creation order. *)
Definition caches_keys : M (list string) :=
  fun s => mkRun (store_names s) s [CachesKeys].

(** [caches.delete(name)]: removes the store; tells whether it existed. *)
Definition caches_delete (name : string) : M bool :=
  fun s =>
    mkRun (has_store s name)
          (filter (fun p => negb (String.eqb (fst p) name)) s)
          [CachesDelete name].

(** [caches.match(request)], on the storage as a whole: the stores are
    searched in creation order and the first entry found is the answer. *)
Fixpoint first_entry (s : CacheStorage) (key : URL) : option Response :=
  match s with
  | [] => None
  | (_, c) :: rest =>
      match entry_match c key with
      | Some r => Some r
      | None => first_entry rest key
      end
  end.

(** The searches it makes: one per store, up to the store that answers. *)
Fixpoint lookups (key : URL) (s : CacheStorage) : list Event :=
  match s with
  | [] => []
  | (name, c) :: rest =>
      CacheMatch name key ::
      match entry_match c key with
      | Some _ => []
      | None => lookups key rest
      end
  end.

Definition caches_match (key : URL) : M (option Response) :=
  fun s => mkRun (first_entry s key) s (lookups key s).

(** [cache.match(request)] on one opened store. *)
Definition cache_match (cache : string) (key : URL) : M (option Response) :=
  fun s => mkRun (entry_of s cache key) s [CacheMatch cache key].

(** What [cache.put] refuses.  The platform rejects the call, and stores
    nothing, when the request is not of the [http] or [https] scheme, when
    the status of the response is 206, and when the response has a [Vary]
    header one of whose field values is [*].  A header name is compared
    without regard to case; the field values are the comma-separated items
    of the header value, with the blanks around them removed. *)
Definition http_scheme (key : URL) : bool :=
  String.prefix "http:" (origin key) || String.prefix "https:" (origin key).

Definition lower_ascii (c : ascii) : ascii :=
  let n := nat_of_ascii c in
  if (65 <=? n)%nat && (n <=? 90)%nat then ascii_of_nat (n + 32) else c.

Fixpoint lower (s : string) : string :=
  match s with
  | EmptyString => EmptyString
  | String c rest => String (lower_ascii c) (lower rest)
  end.

Definition is_blank (c : ascii) : bool :=
  Ascii.eqb c " " || Ascii.eqb c "009".

Fixpoint trim_left (s : string) : string :=
  match s with
  | EmptyString => EmptyString
  | String c rest => if is_blank c then trim_left rest else s
  end.

Fixpoint trim_right (s : string) : string :=
  match s with
  | EmptyString => EmptyString
  | String c rest =>
      match trim_right rest with
      | EmptyString => if is_blank c then EmptyString else String c EmptyString
      | kept => String c kept
      end
  end.

Definition trim (s : string) : string := trim_right (trim_left s).

Fixpoint field_values (value : string) : list string :=
  match value with
  | EmptyString => [EmptyString]
  | String c rest =>
      if Ascii.eqb c "," then EmptyString :: field_values rest
      else match field_values rest with
           | [] => [String c EmptyString]
           | v :: vs => String c v :: vs
           end
  end.

Definition vary_star (r : Response) : bool :=
  existsb (fun h =>
             String.eqb (lower (fst h)) "vary"
             && existsb (fun v => String.eqb (trim v) "*")
                        (field_values (snd h)))
          (headers r).

Definition put_accepted (key : URL) (r : Response) : bool :=
  http_scheme key && negb (status r =? 206)%Z && negb (vary_star r).

(** [cache.put(request, response)] on one opened store.  An accepted put
    replaces the entry for the key.  A refused put stores nothing; the
    promise it rejects is one neither script looks at, so the refusal goes
    unnoticed by the caller.  Failures for lack of storage space are
    outside the model. *)
Definition cache_put (cache : string) (key : URL) (r : Response) : M unit :=
  fun s =>
    if put_accepted key r
    then mkRun tt (store_update s cache (entry_put key r))
               [CachePut cache key r]
    else mkRun tt s [CachePutRefused cache key r].

(** [Promise.all] over calls that do not wait for the network. *)
Fixpoint promise_all {A : Type} (calls : list (M A)) : M (list A) :=
  match calls with
  | [] => ret []
  | c :: rest => a <- c ;; others <- promise_all rest ;; ret (a :: others)
  end.

(** A response is ok when its status is in the range 200 to 299. *)
Definition ok (r : Response) : bool :=
  (200 <=? status r)%Z && (status r <=? 299)%Z.

Fixpoint fetched_all (results : list FetchResult) : option (list Response) :=
  match results with
  | [] => Some []
  | Arrived r :: rest =>
      if ok r then option_map (cons r) (fetched_all rest) else None
  | Unreachable _ :: _ => None
  end.

(** Modelled from the spec: [cache.addAll(urls)] is the platform's, not the
    repository's.  Every URL of the list is fetched; the responses are
    committed to the store together, and only when every URL was fetchable
    (the network answered it with an ok status).  When any URL is not, the
    call rejects and no entry is written: population fails atomically. *)
Definition cache_addAll (net : Network) (cache : string) (keys : list URL)
  : M (Settled unit) :=
  fun s =>
    let fetches :=
      map FetchStart keys ++ map (fun k => FetchSettle k (net k)) keys in
    match fetched_all (map net keys) with
    | Some responses =>
        let batch := combine keys responses in
        mkRun (Fulfilled tt)
              (store_update s cache
                 (fun c => fold_left (fun c e => entry_put (fst e) (snd e) c)
                                     batch c))
              (fetches ++ map (fun e => CachePut cache (fst e) (snd e)) batch)
    | None =>
        mkRun (Rejected (TypeError "addAll: request failed")) s fetches
    end.

(** ** Promises that wait for the network

    Calls on the cache storage complete within the turn that makes them.
    [fetch] does not: the promise it returns is pending, and the callbacks
    chained on it run only when the network has settled. *)

Inductive Promise (A : Type) : Type :=
| Now (v : Settled A)
| Pending (key : URL) (k : FetchResult -> M (Settled A)).
Arguments Now {A} v.
Arguments Pending {A} key k.

(** [fetch(request)]: the request goes out now, the answer comes later. *)
Definition fetch (key : URL) : M (Promise Response) :=
  fun s => mkRun (Pending key (fun r => ret (settled_of r))) s [FetchStart key].

Definition on_fulfilled {A B : Type} (v : Settled A) (f : A -> M B)
  : M (Settled B) :=
  match v with
  | Fulfilled a => b <- f a ;; ret (Fulfilled b)
  | Rejected e => ret (Rejected e)
  end.

Definition on_rejected {A : Type} (v : Settled A) (h : Error -> M A)
  : M (Settled A) :=
  match v with
  | Fulfilled a => ret (Fulfilled a)
  | Rejected e => a <- h e ;; ret (Fulfilled a)
  end.

(** [p.then(f)] *)
Definition then_ {A B : Type} (p : Promise A) (f : A -> M B) : M (Promise B) :=
  match p with
  | Now v => w <- on_fulfilled v f ;; ret (Now w)
  | Pending key k => ret (Pending key (fun r => v <- k r ;; on_fulfilled v f))
  end.

(** [p.catch(h)] *)
Definition catch_ {A : Type} (p : Promise A) (h : Error -> M A) : M (Promise A) :=
  match p with
  | Now v => w <- on_rejected v h ;; ret (Now w)
  | Pending key k => ret (Pending key (fun r => v <- k r ;; on_rejected v h))
  end.

(** The value of an [async] function together with the promises it created
    and left for nobody to wait on. *)
Record Answer : Type := mkAnswer {
  returned : Promise (option Response);
  background : list (Promise (option Response))
}.

(** [cached || network]: a cached response is the value as it stands and
    the network promise is left behind; without one, the network promise is
    the value. *)
Definition or_else (cached : option Response)
                   (network : Promise (option Response)) : Answer :=
  match cached with
  | Some c => mkAnswer (Now (Fulfilled (Some c))) [network]
  | None => mkAnswer network []
  end.

(** What a fetch listener leaves when it returns: the promise handed to
    [event.respondWith], if it called it, and the promises left behind. *)
Record Handling : Type := mkHandling {
  respondWith : option (Promise (option Response));
  unawaited : list (Promise (option Response))
}.

Definition pass_through : Handling := mkHandling None [].
Definition respond (p : Promise (option Response)) : Handling :=
  mkHandling (Some p) [].
Definition respond_answer (a : Answer) : Handling :=
  mkHandling (Some (returned a)) (background a).

(** ** String tests of the router *)

Definition startsWith (s p : string) : bool := String.prefix p s.

Definition endsWith (s suffix : string) : bool :=
  (String.length suffix <=? String.length s)%nat
  && String.eqb
       (substring (String.length s - String.length suffix)
                  (String.length suffix) s)
       suffix.

(** [/\.(png|jpg|jpeg|webp|svg)$/.test(s)] *)
Definition image_extension_test (s : string) : bool :=
  existsb (fun ext => endsWith s ("." ++ ext))
          ["png"; "jpg"; "jpeg"; "webp"; "svg"].

(** ** The worker *)

Section Worker.

(** [CACHE_VERSION] is the constant edited on deploy; [scope] is the
    origin the worker is registered for, against which a path such as
    ['/index.html'] resolves; [CORE_ASSETS] is the manifest. *)
Variable CACHE_VERSION : string.
Variable scope : string.
Variable CORE_ASSETS : list string.

Definition CACHE_NAME : string := "oha-" ++ CACHE_VERSION.

Definition resolve (path : string) : URL := mkURL scope path "".

(** [self.addEventListener('install', ...)]: the promise given to
    [event.waitUntil].  The install step succeeds when it fulfils. *)
Definition install_listener (net : Network) : M (Settled unit) :=
  cache <- caches_open CACHE_NAME ;;
  cache_addAll net cache (map resolve CORE_ASSETS).

(** [self.addEventListener('activate', ...)] *)
Definition activate_listener : M (Settled (list bool)) :=
  keys <- caches_keys ;;
  deleted <- promise_all
               (map caches_delete
                    (filter (fun k => negb (String.eqb k CACHE_NAME)) keys)) ;;
  ret (Fulfilled deleted).

(** [async function staleWhileRevalidate(request)] *)
Definition staleWhileRevalidate (request : Request) : M Answer :=
  cache <- caches_open CACHE_NAME ;;
  cached <- cache_match cache (url request) ;;
  fetching <- fetch (url request) ;;
  revalidated <- then_ fetching (fun resp =>
                   (if (status resp =? 200)%Z
                    then cache_put cache (url request) resp
                    else ret tt) ;;
                   ret (Some resp)) ;;
  network <- catch_ revalidated (fun _ => ret None) ;;
  ret (or_else cached network).

(** [caches.match(key).then(resp => resp || fetch(key))] *)
Definition cache_or_network (key : URL) : M (Promise (option Response)) :=
  resp <- caches_match key ;;
  match resp with
  | Some r => ret (Now (Fulfilled (Some r)))
  | None => fetching <- fetch key ;; then_ fetching (fun net => ret (Some net))
  end.

(** The cache-first chain of [src/sw.js], lines 55 to 63. *)
Definition cache_first (key : URL) : M (Promise (option Response)) :=
  resp <- caches_match key ;;
  match resp with
  | Some r => ret (Now (Fulfilled (Some r)))
  | None =>
      fetching <- fetch key ;;
      then_ fetching (fun net =>
        cache <- caches_open CACHE_NAME ;;
        cache_put cache key net ;;
        ret (Some net))
  end.

Definition is_style (request : Request) : bool :=
  endsWith (pathname (url request)) ".css"
  || String.eqb (destination request) "style".

Definition is_image (request : Request) : bool :=
  startsWith (pathname (url request)) "/assets/media"
  || image_extension_test (pathname (url request)).

(** The fetch listener of [src/sw.js]. *)
Definition fetch_listener_sw (request : Request) : M Handling :=
  if negb (String.eqb (method request) "GET") then ret pass_through
  else if is_style request then
    p <- cache_first (url request) ;; ret (respond p)
  else if is_image request then
    a <- staleWhileRevalidate request ;; ret (respond_answer a)
  else
    p <- cache_or_network (url request) ;; ret (respond p).

(** The fetch listener of [src/unnamed/part_000]. *)
Definition fetch_listener_part_000 (request : Request) : M Handling :=
  if negb (String.eqb (method request) "GET") then ret pass_through
  else if String.eqb (mode request) "navigate" then
    p <- cache_or_network (resolve "/index.html") ;; ret (respond p)
  else if is_image request then
    a <- staleWhileRevalidate request ;; ret (respond_answer a)
  else
    p <- cache_or_network (url request) ;; ret (respond p).

(** The two scripts, and the strategy each routes a request to: the
    conditions of the listeners above, in their order. *)
Inductive Script : Type := sw_js | part_000.

Inductive Strategy : Type :=
| PassThrough
| CacheFirst
| AppShell
| StaleWhileRevalidate
| NetworkFallback.

Definition fetch_listener (script : Script) : Request -> M Handling :=
  match script with
  | sw_js => fetch_listener_sw
  | part_000 => fetch_listener_part_000
  end.

Definition classify (script : Script) (request : Request) : Strategy :=
  if negb (String.eqb (method request) "GET") then PassThrough
  else match script with
       | sw_js =>
           if is_style request then CacheFirst
           else if is_image request then StaleWhileRevalidate
           else NetworkFallback
       | part_000 =>
           if String.eqb (mode request) "navigate" then AppShell
           else if is_image request then StaleWhileRevalidate
           else NetworkFallback
       end.

End Worker.

(** ** Delivering a fetch event *)

(** The network settles a pending promise, whose callbacks then run. *)
Definition settle {A : Type} (net : Network) (p : Promise A) : M (Settled A) :=
  match p with
  | Now v => ret v
  | Pending key k =>
      (fun s => mkRun tt s [FetchSettle key (net key)]) ;; k (net key)
  end.

Fixpoint settle_all {A : Type} (net : Network) (ps : list (Promise A)) : M unit :=
  match ps with
  | [] => ret tt
  | p :: rest => settle net p ;; settle_all net rest
  end.

(** One fetch event, from the call of the listener until every promise it
    created has settled.  [event.respondWith] takes effect when the promise
    it was given settles: at once when that promise does not wait for the
    network, otherwise after the network has settled. The result is [None]
    when the listener did not call [event.respondWith]. *)
Definition dispatch (listener : Request -> M Handling) (net : Network)
                    (request : Request)
  : M (option (Settled (option Response))) :=
  h <- listener request ;;
  match respondWith h with
  | None => settle_all net (unawaited h) ;; ret None
  | Some (Now v) =>
      (fun s => mkRun tt s [RespondWith v]) ;;
      settle_all net (unawaited h) ;;
      ret (Some v)
  | Some (Pending key k) =>
      settle_all net (unawaited h) ;;
      v <- settle net (Pending key k) ;;
      (fun s => mkRun tt s [RespondWith v]) ;;
      ret (Some v)
  end.

(** What the page receives. A promise that rejects, or fulfils with
    something that is not a response, is a network error for the page. *)
Inductive PageResult : Type :=
| NotIntercepted
| Served (r : Response)
| NetworkError.

Definition page_result (o : option (Settled (option Response))) : PageResult :=
  match o with
  | None => NotIntercepted
  | Some (Fulfilled (Some r)) => Served r
  | Some (Fulfilled None) => NetworkError
  | Some (Rejected _) => NetworkError
  end.

(** A sequence of fetch events, each with the network of its moment. *)
Fixpoint dispatch_all (listener : Request -> M Handling)
                      (events : list (Network * Request))
  : M (list (option (Settled (option Response)))) :=
  match events with
  | [] => ret []
  | (net, request) :: rest =>
      o <- dispatch listener net request ;;
      others <- dispatch_all listener rest ;;
      ret (o :: others)
  end.

(** ** The two scripts as deployed *)

Module SwJs.
Definition CACHE_VERSION : string := "v2".
Definition CORE_ASSETS : list string :=
  [ "/"; "/index.html"; "/manifest.json"; "/favicon.svg";
    "/assets/css/main.css"; "/assets/media/freepik-luxury-800.webp" ].
End SwJs.

Module Part000.
Definition CACHE_VERSION : string := "v2".
Definition CORE_ASSETS : list string :=
  [ "/"; "/index.html"; "/manifest.json"; "/favicon.svg";
    "/assets/css/main.css" ].
End Part000.

(** ** Observations on a storage and on a trace *)

(** The network requests a trace started. *)
Fixpoint fetches (t : list Event) : list URL :=
  match t with
  | [] => []
  | FetchStart key :: rest => key :: fetches rest
  | _ :: rest => fetches rest
  end.

(** The entries a trace wrote, with the store written. *)
Fixpoint writes (t : list Event) : list (string * URL * Response) :=
  match t with
  | [] => []
  | CachePut name key r :: rest => (name, key, r) :: writes rest
  | _ :: rest => writes rest
  end.

(** The puts a trace saw refused. *)
Fixpoint refusals (t : list Event) : list (string * URL * Response) :=
  match t with
  | [] => []
  | CachePutRefused name key r :: rest => (name, key, r) :: refusals rest
  | _ :: rest => refusals rest
  end.

(** The stores [caches.match] searches for a key: the stores in creation
    order, up to and including the first that holds an entry for it. *)
Fixpoint stores_searched (s : CacheStorage) (key : URL) : list string :=
  match s with
  | [] => []
  | (name, c) :: rest =>
      name :: match entry_match c key with
              | Some _ => []
              | None => stores_searched rest key
              end
  end.

(** The stores a trace searched. *)
Fixpoint reads (t : list Event) : list string :=
  match t with
  | [] => []
  | CacheMatch name _ :: rest => name :: reads rest
  | _ :: rest => reads rest
  end.

(** The stores a trace opened, and the stores it deleted. *)
Fixpoint opened (t : list Event) : list string :=
  match t with
  | [] => []
  | CachesOpen name :: rest => name :: opened rest
  | _ :: rest => opened rest
  end.

Fixpoint deleted (t : list Event) : list string :=
  match t with
  | [] => []
  | CachesDelete name :: rest => name :: deleted rest
  | _ :: rest => deleted rest
  end.

(** The events of a trace up to the moment [event.respondWith] took effect. *)
Fixpoint before_response (t : list Event) : list Event :=
  match t with
  | [] => []
  | RespondWith _ :: _ => []
  | e :: rest => e :: before_response rest
  end.

(** The network answers a trace has seen. *)
Fixpoint settlements (t : list Event) : list (URL * FetchResult) :=
  match t with
  | [] => []
  | FetchSettle key r :: rest => (key, r) :: settlements rest
  | _ :: rest => settlements rest
  end.

(** A URL is fetchable when the network answers it with an ok status. *)
Definition fetchable (net : Network) (key : URL) : bool :=
  match net key with
  | Arrived r => ok r
  | Unreachable _ => false
  end.

(** ** The run of each route, in closed form

    For a store name, the key looked up and the network of the moment:
    the value [event.respondWith] receives, the storage once every promise
    has settled, and the trace. *)

Definition cache_or_network_run (key : URL) (net : Network) (s : CacheStorage)
  : Run (option (Settled (option Response))) :=
  match first_entry s key with
  | Some r =>
      mkRun (Some (Fulfilled (Some r))) s
            (lookups key s ++ [RespondWith (Fulfilled (Some r))])
  | None =>
      match net key with
      | Arrived resp =>
          mkRun (Some (Fulfilled (Some resp))) s
                (lookups key s ++
                   [FetchStart key; FetchSettle key (Arrived resp);
                    RespondWith (Fulfilled (Some resp))])
      | Unreachable e =>
          mkRun (Some (Rejected e)) s
                (lookups key s ++
                   [FetchStart key; FetchSettle key (Unreachable e);
                    RespondWith (Rejected e)])
      end
  end.

(** What a put leaves, and what it records. *)
Definition stored (name : string) (key : URL) (resp : Response)
                  (s : CacheStorage) : CacheStorage :=
  if put_accepted key resp
  then store_update s name (entry_put key resp)
  else s.

Definition put_events (name : string) (key : URL) (resp : Response)
  : list Event :=
  if put_accepted key resp
  then [CachePut name key resp]
  else [CachePutRefused name key resp].

Definition cache_first_run (name : string) (key : URL) (net : Network)
                           (s : CacheStorage)
  : Run (option (Settled (option Response))) :=
  match first_entry s key with
  | Some r =>
      mkRun (Some (Fulfilled (Some r))) s
            (lookups key s ++ [RespondWith (Fulfilled (Some r))])
  | None =>
      match net key with
      | Arrived resp =>
          mkRun (Some (Fulfilled (Some resp)))
                (stored name key resp (open_or_create s name))
                (lookups key s ++
                   [FetchStart key; FetchSettle key (Arrived resp);
                    CachesOpen name]
                   ++ put_events name key resp
                   ++ [RespondWith (Fulfilled (Some resp))])
      | Unreachable e =>
          mkRun (Some (Rejected e)) s
                (lookups key s ++
                   [FetchStart key; FetchSettle key (Unreachable e);
                    RespondWith (Rejected e)])
      end
  end.

(** What the settled network leaves in the store under
    stale-while-revalidate. *)
Definition revalidated (name : string) (key : URL) (answer : FetchResult)
                       (s : CacheStorage) : CacheStorage :=
  match answer with
  | Arrived resp =>
      if (status resp =? 200)%Z then stored name key resp s else s
  | Unreachable _ => s
  end.

Definition revalidation (name : string) (key : URL) (answer : FetchResult)
  : list Event :=
  match answer with
  | Arrived resp =>
      if (status resp =? 200)%Z then put_events name key resp else []
  | Unreachable _ => []
  end.

Definition network_value (answer : FetchResult) : option Response :=
  match answer with
  | Arrived resp => Some resp
  | Unreachable _ => None
  end.

Definition swr_run (name : string) (key : URL) (net : Network)
                   (s : CacheStorage)
  : Run (option (Settled (option Response))) :=
  let final := revalidated name key (net key) (open_or_create s name) in
  let start := [CachesOpen name; CacheMatch name key; FetchStart key] in
  match entry_of s name key with
  | Some cached =>
      mkRun (Some (Fulfilled (Some cached))) final
            (start ++ RespondWith (Fulfilled (Some cached))
                   :: FetchSettle key (net key)
                   :: revalidation name key (net key))
  | None =>
      mkRun (Some (Fulfilled (network_value (net key)))) final
            (start ++ FetchSettle key (net key)
                   :: revalidation name key (net key)
                   ++ [RespondWith (Fulfilled (network_value (net key)))])
  end.

(** A run is scoped to a store when that store is the only one it writes
    or opens, it deletes none, every other store is what it was in the
    storage the run started from, and the only store it may have created
    is that one. *)
Definition scoped_to {A : Type} (name : string) (s : CacheStorage)
                     (run : Run A) : Prop :=
  (forall n key r, In (n, key, r) (writes (trace run)) -> n = name)
  /\ (forall n, In n (opened (trace run)) -> n = name)
  /\ deleted (trace run) = []
  /\ (forall other, other <> name ->
        store_find (storage run) other = store_find s other)
  /\ (store_names (storage run) = store_names s
      \/ store_names (storage run) = store_names s ++ [name]).

(** ** Sample data for concrete runs *)

Module Sample.
Definition site : string := "https://oha.example".
Definition at_path (p : string) : URL := mkURL site p "".

Definition stylesheet : Request :=
  mkRequest "GET" (at_path "/assets/css/main.css") "no-cors" "style".
Definition photo : Request :=
  mkRequest "GET" (at_path "/assets/media/photo.webp") "no-cors" "image".
Definition page_json : Request :=
  mkRequest "GET" (at_path "/other/page.json") "cors" "".
Definition navigation : Request :=
  mkRequest "GET" (at_path "/about") "navigate" "document".
Definition form_post : Request :=
  mkRequest "POST" (at_path "/contact") "cors" "".

Definition fresh : Response := mkResponse 200 [] "fresh".
Definition stale : Response := mkResponse 200 [] "stale".
Definition missing : Response := mkResponse 404 [] "not found".

(** A partial response, and a response that varies on everything. *)
Definition ranged : Response := mkResponse 206 [] "part".
Definition varying : Response := mkResponse 200 [("Vary", "*")] "varies".

Definition failure : Error := TypeError "Failed to fetch".
Definition online : Network := fun _ => Arrived fresh.
Definition offline : Network := fun _ => Unreachable failure.
Definition not_found : Network := fun _ => Arrived missing.
Definition partial : Network := fun _ => Arrived ranged.
Definition varies : Network := fun _ => Arrived varying.
(** Every asset is served except the icon. *)
Definition icon_down : Network :=
  fun key =>
    if String.eqb (pathname key) "/favicon.svg"
    then Unreachable failure else Arrived fresh.
End Sample.

(** The fetch listeners as deployed, on the sample site. *)
Definition deployed : Script -> Request -> M Handling :=
  fetch_listener SwJs.CACHE_VERSION Sample.site.

(** The values [event.respondWith] took effect with, in a trace. *)
Fixpoint responses (t : list Event) : list (Settled (option Response)) :=
  match t with
  | [] => []
  | RespondWith v :: rest => v :: responses rest
  | _ :: rest => responses rest
  end.

(** Within every store, a key has at most one entry. *)
Definition keys_unique (s : CacheStorage) : Prop :=
  forall name c, In (name, c) s -> NoDup (map fst c).

Arguments CACHE_NAME : simpl never.

(** * Properties *)

(** ** Keys and entries *)

Lemma URL_eqb_eq (a b : URL) : URL_eqb a b = true <-> a = b.
Proof.
  unfold URL_eqb. rewrite !andb_true_iff, !String.eqb_eq.
  destruct a, b; simpl. split.
  - intros [[-> ->] ->]. reflexivity.
  - intros E. inversion E. auto.
Qed.

Lemma URL_eqb_refl (a : URL) : URL_eqb a a = true.
Proof. apply URL_eqb_eq. reflexivity. Qed.

Lemma URL_eqb_neq (a b : URL) : URL_eqb a b = false <-> a <> b.
Proof.
  rewrite <- URL_eqb_eq. destruct (URL_eqb a b); split; congruence.
Qed.

Lemma entry_match_app (c d : Cache) (key : URL) :
  entry_match (c ++ d) key =
  match entry_match c key with
  | Some r => Some r
  | None => entry_match d key
  end.
Proof.
  induction c as [|[k r] c IH]; simpl; [reflexivity|].
  destruct (URL_eqb k key); [reflexivity | exact IH].
Qed.

Lemma entry_match_without (c : Cache) (k key : URL) :
  entry_match (filter (fun e => negb (URL_eqb (fst e) k)) c) key =
  if URL_eqb k key then None else entry_match c key.
Proof.
  induction c as [|[k' r] c IH]; simpl.
  - destruct (URL_eqb k key); reflexivity.
  - destruct (URL_eqb k' k) eqn:E1; simpl.
    + apply URL_eqb_eq in E1. subst k'. rewrite IH.
      destruct (URL_eqb k key); reflexivity.
    + rewrite IH. destruct (URL_eqb k' key) eqn:E2; [|reflexivity].
      apply URL_eqb_eq in E2. subst k'.
      destruct (URL_eqb k key) eqn:E3; [|reflexivity].
      apply URL_eqb_eq in E3. subst k. rewrite URL_eqb_refl in E1. discriminate.
Qed.

Lemma entry_match_put_same (c : Cache) (key : URL) (r : Response) :
  entry_match (entry_put key r c) key = Some r.
Proof.
  unfold entry_put. rewrite entry_match_app, entry_match_without.
  rewrite URL_eqb_refl. simpl. rewrite URL_eqb_refl. reflexivity.
Qed.

Lemma entry_match_put_other (c : Cache) (k key : URL) (r : Response) :
  k <> key -> entry_match (entry_put k r c) key = entry_match c key.
Proof.
  intros N. apply URL_eqb_neq in N.
  unfold entry_put. rewrite entry_match_app, entry_match_without.
  simpl. rewrite N. destruct (entry_match c key); reflexivity.
Qed.

(** ** Named stores *)

Lemma store_find_update_same (s : CacheStorage) (name : string) f :
  store_find (store_update s name f) name = option_map f (store_find s name).
Proof.
  induction s as [|[n c] s IH]; simpl; [reflexivity|].
  destruct (String.eqb n name) eqn:E; simpl; rewrite E; [reflexivity | exact IH].
Qed.

Lemma store_find_update_other (s : CacheStorage) (name other : string) f :
  other <> name ->
  store_find (store_update s name f) other = store_find s other.
Proof.
  intros N. induction s as [|[n c] s IH]; simpl; [reflexivity|].
  destruct (String.eqb n name) eqn:E; simpl.
  - apply String.eqb_eq in E. subst n.
    destruct (String.eqb name other) eqn:E'; [|reflexivity].
    apply String.eqb_eq in E'. congruence.
  - rewrite IH. reflexivity.
Qed.

Lemma store_names_update (s : CacheStorage) (name : string) f :
  store_names (store_update s name f) = store_names s.
Proof.
  unfold store_names.
  induction s as [|[n c] s IH]; simpl; [reflexivity|].
  destruct (String.eqb n name); simpl; [reflexivity | now rewrite IH].
Qed.

Lemma store_find_app (s t : CacheStorage) (name : string) :
  store_find (s ++ t) name =
  match store_find s name with
  | Some c => Some c
  | None => store_find t name
  end.
Proof.
  induction s as [|[n c] s IH]; simpl; [reflexivity|].
  destruct (String.eqb n name); [reflexivity | exact IH].
Qed.

Lemma store_find_In (s : CacheStorage) (name : string) :
  In name (store_names s) <-> has_store s name = true.
Proof.
  unfold has_store, store_names.
  induction s as [|[n c] s IH]; simpl.
  - split; [tauto | discriminate].
  - destruct (String.eqb n name) eqn:E.
    + apply String.eqb_eq in E. tauto.
    + apply String.eqb_neq in E. rewrite <- IH. tauto.
Qed.

(** Opening a store changes no entry and leaves the store in place. *)
Lemma has_store_open (name : string) (s : CacheStorage) :
  has_store (open_or_create s name) name = true.
Proof.
  unfold open_or_create. destruct (has_store s name) eqn:E; [exact E|].
  unfold has_store in *. rewrite store_find_app.
  destruct (store_find s name); [discriminate|].
  simpl. rewrite String.eqb_refl. reflexivity.
Qed.

Lemma open_existing (name : string) (s : CacheStorage) :
  has_store s name = true -> open_or_create s name = s.
Proof. unfold open_or_create. now intros ->. Qed.

Lemma entry_of_open (name n : string) (key : URL) (s : CacheStorage) :
  entry_of (open_or_create s name) n key = entry_of s n key.
Proof.
  unfold open_or_create. destruct (has_store s name) eqn:E; [reflexivity|].
  unfold entry_of. rewrite store_find_app.
  destruct (store_find s n); [reflexivity|].
  simpl. destruct (String.eqb name n); reflexivity.
Qed.

Lemma store_find_open_other (name other : string) (s : CacheStorage) :
  other <> name ->
  store_find (open_or_create s name) other = store_find s other.
Proof.
  intros N. unfold open_or_create. destruct (has_store s name); [reflexivity|].
  rewrite store_find_app. destruct (store_find s other); [reflexivity|].
  simpl. destruct (String.eqb name other) eqn:E; [|reflexivity].
  apply String.eqb_eq in E. congruence.
Qed.

Lemma entry_of_put_same (s : CacheStorage) (name : string) (key : URL)
      (r : Response) :
  has_store s name = true ->
  entry_of (store_update s name (entry_put key r)) name key = Some r.
Proof.
  unfold has_store, entry_of. intros H.
  rewrite store_find_update_same.
  destruct (store_find s name); [|discriminate].
  simpl. apply entry_match_put_same.
Qed.

(** ** [caches.match] *)



(** No answer: no store holds an entry for the key. *)
Lemma first_entry_none_iff (s : CacheStorage) (key : URL) :
  first_entry s key = None <->
  forall name c, In (name, c) s -> entry_match c key = None.
Proof.
  induction s as [|[n c] s IH]; simpl.
  - split; [intros _ ? ? [] | reflexivity].
  - destruct (entry_match c key) eqn:E.
    + split; [discriminate|]. intros H. rewrite (H n c) in E; [discriminate E | now left].
    + rewrite IH. split.
      * intros H name c' [X | X]; [now inversion X; subst | now apply (H name)].
      * intros H name c' X. apply (H name). now right.
Qed.

(** An answer: the entry of a store before which no store holds one. *)
Lemma first_entry_some_iff (s : CacheStorage) (key : URL) (r : Response) :
  first_entry s key = Some r <->
  exists before name c after,
    s = before ++ (name, c) :: after
    /\ first_entry before key = None
    /\ entry_match c key = Some r.
Proof.
  induction s as [|[n c] s IH]; simpl.
  - split; [discriminate|]. intros (b & ? & ? & ? & E & _).
    destruct b; discriminate E.
  - destruct (entry_match c key) eqn:E.
    + split.
      * intros X. exists [], n, c, s. simpl. rewrite E. auto.
      * intros ([|[n' c'] b] & name & c0 & a & X & F & G); simpl in *.
        -- inversion X; subst. congruence.
        -- inversion X; subst. rewrite E in F. discriminate.
    + rewrite IH. split.
      * intros (b & name & c0 & a & X & F & G).
        exists ((n, c) :: b), name, c0, a. simpl. rewrite E, X. auto.
      * intros ([|[n' c'] b] & name & c0 & a & X & F & G); simpl in *.
        -- inversion X; subst. congruence.
        -- inversion X; subst. rewrite E in F. exists b, name, c0, a. auto.
Qed.

Lemma first_entry_only_store (name : string) (c : Cache) (key : URL) :
  first_entry [(name, c)] key = entry_of [(name, c)] name key.
Proof.
  unfold entry_of. simpl. rewrite String.eqb_refl.
  destruct (entry_match c key); reflexivity.
Qed.



(** ** Traces *)

Lemma fetches_app (t u : list Event) : fetches (t ++ u) = fetches t ++ fetches u.
Proof.
  induction t as [|e t IH]; simpl; [reflexivity|].
  destruct e; simpl; congruence.
Qed.

Lemma writes_app (t u : list Event) : writes (t ++ u) = writes t ++ writes u.
Proof.
  induction t as [|e t IH]; simpl; [reflexivity|].
  destruct e; simpl; congruence.
Qed.

Lemma reads_app (t u : list Event) : reads (t ++ u) = reads t ++ reads u.
Proof.
  induction t as [|e t IH]; simpl; [reflexivity|].
  destruct e; simpl; congruence.
Qed.

Lemma opened_app (t u : list Event) : opened (t ++ u) = opened t ++ opened u.
Proof.
  induction t as [|e t IH]; simpl; [reflexivity|].
  destruct e; simpl; congruence.
Qed.

Lemma deleted_app (t u : list Event) : deleted (t ++ u) = deleted t ++ deleted u.
Proof.
  induction t as [|e t IH]; simpl; [reflexivity|].
  destruct e; simpl; congruence.
Qed.

Lemma settlements_app (t u : list Event) :
  settlements (t ++ u) = settlements t ++ settlements u.
Proof.
  induction t as [|e t IH]; simpl; [reflexivity|].
  destruct e; simpl; congruence.
Qed.

(** [caches.match] only searches. *)
Lemma lookups_only_search (key : URL) (s : CacheStorage) :
  fetches (lookups key s) = [] /\ writes (lookups key s) = []
  /\ opened (lookups key s) = [] /\ deleted (lookups key s) = []
  /\ settlements (lookups key s) = [].
Proof.
  induction s as [|[n c] s IH]; simpl; [tauto|].
  destruct (entry_match c key); simpl; [tauto | exact IH].
Qed.

Lemma reads_lookups_incl (key : URL) (s : CacheStorage) :
  incl (reads (lookups key s)) (store_names s).
Proof.
  unfold store_names. induction s as [|[n c] s IH]; simpl.
  - apply incl_refl.
  - destruct (entry_match c key); simpl.
    + intros x [<- | []]. now left.
    + intros x [<- | H]; [now left | right; now apply IH].
Qed.

Ltac trace_obs :=
  rewrite ?fetches_app, ?writes_app, ?opened_app, ?deleted_app,
          ?settlements_app, ?reads_app;
  repeat match goal with
  | |- context [fetches (lookups ?k ?s)] =>
      rewrite (proj1 (lookups_only_search k s))
  | |- context [writes (lookups ?k ?s)] =>
      rewrite (proj1 (proj2 (lookups_only_search k s)))
  | |- context [opened (lookups ?k ?s)] =>
      rewrite (proj1 (proj2 (proj2 (lookups_only_search k s))))
  | |- context [deleted (lookups ?k ?s)] =>
      rewrite (proj1 (proj2 (proj2 (proj2 (lookups_only_search k s)))))
  | |- context [settlements (lookups ?k ?s)] =>
      rewrite (proj2 (proj2 (proj2 (proj2 (lookups_only_search k s)))))
  end;
  simpl.

(** ** What each route runs *)

Ltac route H :=
  unfold classify in H;
  repeat match type of H with
  | context [if ?b then _ else _] =>
      let E := fresh "E" in destruct b eqn:E
  | context [match ?x with sw_js => _ | part_000 => _ end] => destruct x
  end;
  try discriminate H.

Ltac use_equations :=
  repeat match goal with
  | E : ?x = _ |- context [?x] => rewrite E
  end.

Ltac exec_step :=
  cbv beta iota zeta delta
    [bind ret cache_or_network cache_first staleWhileRevalidate
     caches_match caches_open cache_match cache_put fetch then_ catch_
     on_fulfilled on_rejected or_else respond respond_answer pass_through
     settle settle_all settled_of
     result storage trace respondWith unawaited returned background];
  rewrite ?entry_of_open;
  use_equations.

Ltac exec :=
  cbv beta iota delta
    [dispatch fetch_listener fetch_listener_sw fetch_listener_part_000];
  use_equations;
  do 3 exec_step;
  cbn [app]; rewrite ?app_nil_r, <- ?app_assoc; cbn [app].

Section Routes.

Variables CACHE_VERSION scope : string.

Local Abbreviation NAME := (CACHE_NAME CACHE_VERSION).
Local Abbreviation listener := (fetch_listener CACHE_VERSION scope).

Lemma dispatch_pass_through script request net s :
  classify script request = PassThrough ->
  dispatch (listener script) net request s = mkRun None s [].
Proof.
  intros H. destruct script; route H. all: exec. all: reflexivity.
Qed.

Lemma dispatch_network_fallback script request net s :
  classify script request = NetworkFallback ->
  dispatch (listener script) net request s =
  cache_or_network_run (url request) net s.
Proof.
  intros H. route H.
  all: unfold cache_or_network_run.
  all: destruct (first_entry s (url request)) eqn:F;
       [|destruct (net (url request)) eqn:N].
  all: exec.
  all: reflexivity.
Qed.

Lemma dispatch_app_shell request net s :
  classify part_000 request = AppShell ->
  dispatch (listener part_000) net request s =
  cache_or_network_run (resolve scope "/index.html") net s.
Proof.
  intros H. route H.
  all: unfold cache_or_network_run.
  all: destruct (first_entry s (resolve scope "/index.html")) eqn:F;
       [|destruct (net (resolve scope "/index.html")) eqn:N].
  all: exec.
  all: reflexivity.
Qed.

Lemma dispatch_cache_first request net s :
  classify sw_js request = CacheFirst ->
  dispatch (listener sw_js) net request s =
  cache_first_run NAME (url request) net s.
Proof.
  intros H. route H.
  all: unfold cache_first_run, stored, put_events.
  all: destruct (first_entry s (url request)) eqn:F;
       [|destruct (net (url request)) as [resp|e] eqn:N;
         [destruct (put_accepted (url request) resp) eqn:A|]].
  all: exec.
  all: reflexivity.
Qed.

Lemma dispatch_stale_while_revalidate script request net s :
  classify script request = StaleWhileRevalidate ->
  dispatch (listener script) net request s =
  swr_run NAME (url request) net s.
Proof.
  intros H. route H.
  all: unfold swr_run, revalidated, revalidation, network_value,
              stored, put_events.
  all: destruct (entry_of s NAME (url request)) eqn:F;
       (destruct (net (url request)) as [resp|e] eqn:N;
        [destruct (status resp =? 200)%Z eqn:S;
         [destruct (put_accepted (url request) resp) eqn:A|]|]).
  all: exec.
  all: reflexivity.
Qed.

End Routes.

(** ** The lifecycle listeners *)

Lemma promise_all_delete (names : list string) (s : CacheStorage) :
  storage (promise_all (map caches_delete names) s) =
  filter (fun p => negb (existsb (String.eqb (fst p)) names)) s
  /\ deleted (trace (promise_all (map caches_delete names) s)) = names
  /\ writes (trace (promise_all (map caches_delete names) s)) = []
  /\ opened (trace (promise_all (map caches_delete names) s)) = [].
Proof.
  revert s. induction names as [|n names IH]; intros s; simpl.
  - repeat split. induction s as [|p s IHs]; simpl; congruence.
  - unfold bind. simpl.
    destruct (IH (filter (fun p => negb (String.eqb (fst p) n)) s))
      as (St & De & Wr & Op).
    destruct (promise_all (map caches_delete names) _) as [bs s' t].
    simpl in *. subst s'. rewrite app_nil_r.
    repeat split; try congruence.
    clear. induction s as [|p s IHs]; simpl; [reflexivity|].
    destruct (String.eqb (fst p) n); simpl; rewrite IHs; reflexivity.
Qed.

Lemma activate_storage (version : string) (s : CacheStorage) :
  storage (activate_listener version s) =
  filter (fun p => String.eqb (fst p) (CACHE_NAME version)) s.
Proof.
  unfold activate_listener, bind, caches_keys.
  destruct (promise_all_delete
              (filter (fun k => negb (String.eqb k (CACHE_NAME version)))
                      (store_names s)) s) as (St & _).
  destruct (promise_all _ s) as [bs s' t]. simpl in *. subst s'.
  apply filter_ext_in. intros [n c] I. simpl.
  destruct (String.eqb n (CACHE_NAME version)) eqn:E.
  - apply negb_true_iff. apply not_true_iff_false. intros X.
    apply existsb_exists in X. destruct X as (k & Ik & Ek).
    apply String.eqb_eq in Ek. subst k.
    apply filter_In in Ik. rewrite E in Ik. simpl in Ik. destruct Ik. discriminate.
  - apply negb_false_iff. apply existsb_exists. exists n. split.
    + apply filter_In. rewrite E. split; [|reflexivity].
      unfold store_names. apply in_map_iff. exists (n, c). auto.
    + apply String.eqb_refl.
Qed.

Lemma filter_name_find (s : CacheStorage) (name other : string) :
  store_find (filter (fun p => String.eqb (fst p) name) s) other =
  if String.eqb name other then store_find s other else None.
Proof.
  induction s as [|[n c] s IH]; simpl.
  - destruct (String.eqb name other); reflexivity.
  - destruct (String.eqb n name) eqn:E; simpl.
    + apply String.eqb_eq in E. subst n.
      destruct (String.eqb name other); [reflexivity | exact IH].
    + rewrite IH. destruct (String.eqb name other) eqn:E'; [|reflexivity].
      apply String.eqb_eq in E'. subst other. rewrite E. reflexivity.
Qed.

Lemma filter_name_names (s : CacheStorage) (name : string) :
  wf s ->
  store_names (filter (fun p => String.eqb (fst p) name) s) =
  if has_store s name then [name] else [].
Proof.
  unfold wf, store_names, has_store.
  induction s as [|[n c] s IH]; simpl; intros W; [reflexivity|].
  inversion W as [|? ? Nin W']; subst.
  destruct (String.eqb n name) eqn:E; simpl.
  - apply String.eqb_eq in E. subst n. f_equal.
    rewrite IH by assumption.
    destruct (store_find s name) eqn:F; [|reflexivity].
    exfalso. apply Nin. apply (store_find_In s name).
    unfold has_store. now rewrite F.
  - now apply IH.
Qed.

Lemma wf_open (s : CacheStorage) (name : string) :
  wf s -> wf (open_or_create s name).
Proof.
  unfold open_or_create, wf, store_names. intros W.
  destruct (has_store s name) eqn:E; [exact W|].
  rewrite map_app. simpl. apply NoDup_app; [exact W | repeat constructor; auto | ].
  intros x I [<- | []]. apply store_find_In in I. congruence.
Qed.

Lemma CACHE_NAME_inj (v w : string) : CACHE_NAME v = CACHE_NAME w -> v = w.
Proof. unfold CACHE_NAME. simpl. congruence. Qed.

Lemma fetched_all_fails (net : Network) (keys : list URL) :
  (exists key, In key keys /\ fetchable net key = false) ->
  fetched_all (map net keys) = None.
Proof.
  unfold fetchable. intros (key & I & F).
  induction keys as [|k keys IH]; simpl; [destruct I|].
  destruct I as [-> | I].
  - destruct (net key); [now rewrite F | reflexivity].
  - destruct (net k); [|reflexivity].
    destruct (ok response); [|reflexivity].
    now rewrite IH.
Qed.

Lemma install_storage (version scope : string) (assets : list string)
      (net : Network) (s : CacheStorage) :
  store_names (storage (install_listener version scope assets net s)) =
  store_names (open_or_create s (CACHE_NAME version)).
Proof.
  unfold install_listener, bind, caches_open, cache_addAll.
  destruct (fetched_all _); simpl; [|reflexivity].
  apply store_names_update.
Qed.

(** ** What a put leaves *)

Lemma stored_refused (name : string) (k : URL) (r : Response)
      (s : CacheStorage) :
  put_accepted k r = false -> stored name k r s = s.
Proof. unfold stored. now intros ->. Qed.

Lemma stored_accepted (name : string) (k : URL) (r : Response)
      (s : CacheStorage) :
  put_accepted k r = true ->
  stored name k r s = store_update s name (entry_put k r).
Proof. unfold stored. now intros ->. Qed.


Lemma store_find_stored_other (s : CacheStorage) (name other : string)
      (k : URL) (r : Response) :
  other <> name -> store_find (stored name k r s) other = store_find s other.
Proof.
  intros N. unfold stored. destruct (put_accepted k r); [|reflexivity].
  now apply store_find_update_other.
Qed.

Lemma store_names_stored (s : CacheStorage) (name : string) (k : URL)
      (r : Response) :
  store_names (stored name k r s) = store_names s.
Proof.
  unfold stored. destruct (put_accepted k r); [|reflexivity].
  apply store_names_update.
Qed.

Lemma entry_of_stored_same (s : CacheStorage) (name : string) (k : URL)
      (r : Response) :
  put_accepted k r = true -> has_store s name = true ->
  entry_of (stored name k r s) name k = Some r.
Proof.
  intros A H. rewrite stored_accepted by exact A. now apply entry_of_put_same.
Qed.

Lemma observe_put_events (name : string) (k : URL) (r : Response) :
  writes (put_events name k r)
  = (if put_accepted k r then [(name, k, r)] else [])
  /\ refusals (put_events name k r)
     = (if put_accepted k r then [] else [(name, k, r)])
  /\ fetches (put_events name k r) = []
  /\ opened (put_events name k r) = []
  /\ deleted (put_events name k r) = []
  /\ reads (put_events name k r) = []
  /\ settlements (put_events name k r) = [].
Proof. unfold put_events. destruct (put_accepted k r); simpl; tauto. Qed.

(** ** Scoping of the closed forms *)

Lemma store_names_open (s : CacheStorage) (name : string) :
  store_names (open_or_create s name) = store_names s
  \/ store_names (open_or_create s name) = store_names s ++ [name].
Proof.
  unfold open_or_create, store_names.
  destruct (has_store s name); [now left | right].
  now rewrite map_app.
Qed.

Lemma scoped_unchanged {A : Type} (name : string) (s : CacheStorage)
      (a : A) (t : list Event) :
  writes t = [] -> opened t = [] -> deleted t = [] ->
  scoped_to name s (mkRun a s t).
Proof.
  intros W O D. unfold scoped_to. simpl. rewrite W, O, D. simpl.
  repeat split; try contradiction; auto.
Qed.

Lemma scoped_cache_or_network (name : string) (key : URL) (net : Network)
      (s : CacheStorage) :
  scoped_to name s (cache_or_network_run key net s).
Proof.
  unfold cache_or_network_run.
  destruct (first_entry s key); [|destruct (net key)];
    apply scoped_unchanged; trace_obs; reflexivity.
Qed.

Lemma scoped_put {A : Type} (name : string) (key : URL) (resp : Response)
      (s : CacheStorage) (a : A) (t : list Event) :
  (forall n k r, In (n, k, r) (writes t) -> n = name) ->
  (forall n, In n (opened t) -> n = name) ->
  deleted t = [] ->
  scoped_to name s
    (mkRun a (store_update (open_or_create s name) name (entry_put key resp)) t).
Proof.
  intros W O D. unfold scoped_to. simpl. repeat split; auto.
  - intros other N. rewrite store_find_update_other by exact N.
    now apply store_find_open_other.
  - rewrite store_names_update. apply store_names_open.
Qed.

Lemma scoped_open {A : Type} (name : string) (s : CacheStorage)
      (a : A) (t : list Event) :
  writes t = [] ->
  (forall n, In n (opened t) -> n = name) ->
  deleted t = [] ->
  scoped_to name s (mkRun a (open_or_create s name) t).
Proof.
  intros W O D. unfold scoped_to. simpl. rewrite W. repeat split; auto.
  - contradiction.
  - intros other N. now apply store_find_open_other.
  - apply store_names_open.
Qed.

Ltac scope_events :=
  trace_obs;
  first [ reflexivity
        | let E := fresh in intros ? ? ? [E | []]; now inversion E
        | let E := fresh in intros ? [E | []]; now subst
        | intros; contradiction ].

Lemma scoped_cache_first (name : string) (key : URL) (net : Network)
      (s : CacheStorage) :
  scoped_to name s (cache_first_run name key net s).
Proof.
  unfold cache_first_run, stored, put_events.
  destruct (first_entry s key);
    [|destruct (net key) as [resp|e]; [destruct (put_accepted key resp)|]];
    simpl;
    first [apply scoped_unchanged | apply scoped_put | apply scoped_open];
    scope_events.
Qed.

Lemma scoped_swr (name : string) (key : URL) (net : Network)
      (s : CacheStorage) :
  scoped_to name s (swr_run name key net s)
  /\ forall n, In n (reads (trace (swr_run name key net s))) -> n = name.
Proof.
  unfold swr_run, revalidated, revalidation, network_value,
         stored, put_events.
  destruct (entry_of s name key);
    (destruct (net key) as [resp|e];
     [destruct (status resp =? 200)%Z; [destruct (put_accepted key resp)|]|]);
    simpl; (split; [first [apply scoped_put | apply scoped_open] |]);
    scope_events.
Qed.

Lemma dispatch_all_cons (l : Request -> M Handling) (net : Network)
      (request : Request) (later : list (Network * Request))
      (s : CacheStorage) :
  dispatch_all l ((net, request) :: later) s =
  mkRun (result (dispatch l net request s)
           :: result (dispatch_all l later (storage (dispatch l net request s))))
        (storage (dispatch_all l later (storage (dispatch l net request s))))
        (trace (dispatch l net request s)
           ++ trace (dispatch_all l later (storage (dispatch l net request s)))).
Proof.
  simpl. unfold bind.
  destruct (dispatch l net request s) as [o s1 t1]. simpl.
  destruct (dispatch_all l later s1) as [os s2 t2]. simpl.
  now rewrite app_nil_r.
Qed.

(** ** Later requests under [src/sw.js] *)

Section Later.

Variables CACHE_VERSION scope : string.

Local Abbreviation NAME := (CACHE_NAME CACHE_VERSION).
Local Abbreviation listener := (fetch_listener CACHE_VERSION scope sw_js).



End Later.

(** A request for a stylesheet path is never routed to
    stale-while-revalidate by [src/sw.js]. *)
Lemma stylesheet_never_revalidated (request : Request) :
  endsWith (pathname (url request)) ".css" = true ->
  classify sw_js request <> StaleWhileRevalidate.
Proof.
  intros E. unfold classify, is_style. rewrite E. simpl.
  destruct (negb _); discriminate.
Qed.

Lemma refusals_app (t u : list Event) :
  refusals (t ++ u) = refusals t ++ refusals u.
Proof.
  induction t as [|ev t IH]; simpl; [reflexivity|].
  destruct ev; simpl; congruence.
Qed.

Lemma refusals_lookups (key : URL) (s : CacheStorage) :
  refusals (lookups key s) = [].
Proof.
  induction s as [|[n c] s IH]; simpl; [reflexivity|].
  destruct (entry_match c key); [reflexivity | exact IH].
Qed.

(** [caches.match] searches the stores in creation order and stops at the
    first that holds an entry. *)
Lemma reads_lookups (key : URL) (s : CacheStorage) :
  reads (lookups key s) = stores_searched s key.
Proof.
  induction s as [|[n c] s IH]; simpl; [reflexivity|].
  destruct (entry_match c key); simpl; [reflexivity | now rewrite IH].
Qed.

Lemma stores_searched_spec (s : CacheStorage) (key : URL) :
  match first_entry s key with
  | None => stores_searched s key = store_names s
  | Some r =>
      exists before name c after,
        s = before ++ (name, c) :: after
        /\ first_entry before key = None
        /\ entry_match c key = Some r
        /\ stores_searched s key = store_names before ++ [name]
  end.
Proof.
  induction s as [|[n c] s IH]; simpl; [reflexivity|].
  destruct (entry_match c key) as [r|] eqn:E.
  - exists [], n, c, s. simpl. auto.
  - destruct (first_entry s key) as [r|].
    + destruct IH as (before & name & c' & after & -> & F & M & S).
      exists ((n, c) :: before), name, c', after. simpl. rewrite E, S. auto.
    + unfold store_names in *. simpl. now rewrite IH.
Qed.

(** A put that the platform refuses was aimed at the active store, under
    the URL of the request. *)
Lemma refusals_scoped (version scope : string) (script : Script)
      (request : Request) (net : Network) (s : CacheStorage) :
  forall n k r,
    In (n, k, r)
       (refusals (trace (dispatch (fetch_listener version scope script)
                                  net request s))) ->
    n = CACHE_NAME version /\ k = url request.
Proof.
  intros n k r. destruct (classify script request) eqn:R.
  - rewrite dispatch_pass_through by exact R. intros [].
  - assert (script = sw_js) as -> by (destruct script; [reflexivity | route R]).
    rewrite dispatch_cache_first by exact R.
    unfold cache_first_run, put_events.
    destruct (first_entry s (url request));
      [|destruct (net (url request)) as [resp|e];
        [destruct (put_accepted (url request) resp)|]];
      simpl; rewrite refusals_app, refusals_lookups; simpl;
      try contradiction.
    intros [E | []]. now inversion E.
  - assert (script = part_000) as -> by (destruct script; [route R | reflexivity]).
    rewrite dispatch_app_shell by exact R. unfold cache_or_network_run.
    destruct (first_entry s _); [|destruct (net _)];
      simpl; rewrite refusals_app, refusals_lookups; simpl; contradiction.
  - rewrite dispatch_stale_while_revalidate by exact R.
    unfold swr_run, revalidation, put_events.
    destruct (entry_of s (CACHE_NAME version) (url request));
      (destruct (net (url request)) as [resp|e];
       [destruct (status resp =? 200)%Z;
        [destruct (put_accepted (url request) resp)|]|]);
      simpl; try contradiction; intros [E | []]; now inversion E.
  - rewrite dispatch_network_fallback by exact R. unfold cache_or_network_run.
    destruct (first_entry s _); [|destruct (net _)];
      simpl; rewrite refusals_app, refusals_lookups; simpl; contradiction.
Qed.

(** * The claims *)

Section Policy.

Variables CACHE_VERSION scope : string.

Local Abbreviation NAME := (CACHE_NAME CACHE_VERSION).
Local Abbreviation listener := (fetch_listener CACHE_VERSION scope).

(** C4. A request whose method is not GET is not intercepted: the
    listener returns without calling [event.respondWith], and handling it
    makes no platform call at all, so no store is read or written and the
    storage is what it was.  This holds for both scripts. *)
Theorem non_get_request_passes_through
        (script : Script) (request : Request) (net : Network)
        (s : CacheStorage) :
  method request <> "GET" ->
  let run := dispatch (listener script) net request s in
  result run = None
  /\ page_result (result run) = NotIntercepted
  /\ storage run = s
  /\ trace run = [].
Proof.
  intros G run. subst run.
  rewrite dispatch_pass_through.
  - repeat split.
  - unfold classify. apply String.eqb_neq in G. now rewrite G.
Qed.

(** C7. The default strategy, in both scripts.  A cached entry is
    returned at once, with no network request.  Without one, the network
    is asked and its answer, or its failure, is what is returned.  In
    every case the storage is left as it was and nothing is written: with
    no entry and an unreachable network the call fails with the network's
    own error. *)
Theorem network_fallback_never_writes
        (script : Script) (request : Request) (net : Network)
        (s : CacheStorage) :
  classify script request = NetworkFallback ->
  let key := url request in
  let run := dispatch (listener script) net request s in
  storage run = s
  /\ writes (trace run) = []
  /\ opened (trace run) = []
  /\ match first_entry s key with
     | Some cached =>
         result run = Some (Fulfilled (Some cached))
         /\ fetches (trace run) = []
     | None =>
         fetches (trace run) = [key]
         /\ result run =
            Some match net key with
                 | Arrived resp => Fulfilled (Some resp)
                 | Unreachable reason => Rejected reason
                 end
     end.
Proof.
  intros R key run. subst run key.
  rewrite dispatch_network_fallback by exact R.
  unfold cache_or_network_run.
  destruct (first_entry s (url request));
    [|destruct (net (url request))]; simpl; trace_obs; auto.
Qed.

(** C8. The app shell of [src/unnamed/part_000].  For a GET request
    whose mode is a navigation, whatever its URL, the key looked up is
    the entry point document ['/index.html']: a cached entry for it is
    what is served, with no network request, and the document is fetched
    from the network only when no store holds an entry for it.  Nothing
    is written. *)
Theorem navigation_serves_app_shell
        (request : Request) (net : Network) (s : CacheStorage) :
  method request = "GET" ->
  mode request = "navigate" ->
  let index := resolve scope "/index.html" in
  let run := dispatch (listener part_000) net request s in
  storage run = s
  /\ writes (trace run) = []
  /\ match first_entry s index with
     | Some document =>
         result run = Some (Fulfilled (Some document))
         /\ fetches (trace run) = []
     | None =>
         fetches (trace run) = [index]
         /\ result run =
            Some match net index with
                 | Arrived resp => Fulfilled (Some resp)
                 | Unreachable reason => Rejected reason
                 end
     end.
Proof.
  intros G N index run. subst run index.
  rewrite dispatch_app_shell.
  - unfold cache_or_network_run.
    destruct (first_entry s (resolve scope "/index.html"));
      [|destruct (net (resolve scope "/index.html"))]; simpl; trace_obs; auto.
  - unfold classify. rewrite G, N. reflexivity.
Qed.

(** C1, as the code has it.  Cache-first in [src/sw.js] looks the request
    up with [caches.match], in the stores of the storage in creation
    order, up to the first store that holds an entry for it.  When some
    store holds an entry, the first such entry is
    returned at once: no network request is made and the storage is left
    as it was.  When no store holds one, the network is asked; once it
    answers, the response is put into the active store under the key of
    the request and is the response returned.  The put stores the response
    when the platform accepts it; when the platform refuses it, nothing is
    stored and the response is returned all the same.  When the network
    does not answer, the failure is what is returned and nothing is
    written.  When the active store is the only store, as activation
    leaves the storage, the entry found is the active store's entry. *)
Theorem cache_first_serves_first_entry
        (request : Request) (net : Network) (s : CacheStorage) :
  classify sw_js request = CacheFirst ->
  let key := url request in
  let run := dispatch (listener sw_js) net request s in
  match first_entry s key with
  | Some cached =>
      result run = Some (Fulfilled (Some cached))
      /\ fetches (trace run) = []
      /\ storage run = s
  | None =>
      fetches (trace run) = [key]
      /\ match net key with
         | Arrived resp =>
             result run = Some (Fulfilled (Some resp))
             /\ if put_accepted key resp
                then writes (trace run) = [(NAME, key, resp)]
                     /\ entry_of (storage run) NAME key = Some resp
                else writes (trace run) = []
                     /\ refusals (trace run) = [(NAME, key, resp)]
                     /\ storage run = open_or_create s NAME
         | Unreachable reason =>
             result run = Some (Rejected reason)
             /\ writes (trace run) = []
             /\ storage run = s
         end
  end
  /\ reads (trace run) = stores_searched s key
  /\ (store_names s = [NAME] -> first_entry s key = entry_of s NAME key).
Proof.
  intros R key run. subst run key.
  rewrite dispatch_cache_first by exact R.
  unfold cache_first_run, stored, put_events. split; [|split].
  - destruct (first_entry s (url request));
      [|destruct (net (url request)) as [resp|e];
        [destruct (put_accepted (url request) resp)|]];
      simpl; rewrite ?refusals_app, ?refusals_lookups; trace_obs; auto.
    repeat split. apply entry_of_put_same, has_store_open.
  - destruct (first_entry s (url request));
      [|destruct (net (url request)) as [resp|e];
        [destruct (put_accepted (url request) resp)|]];
      simpl; trace_obs; rewrite ?app_nil_r; apply reads_lookups.
  - destruct s as [|[n c] [|? ?]]; simpl; try discriminate.
    intros E. injection E as ->. apply first_entry_only_store.
Qed.

(** C2, as the code has it.  Stale-while-revalidate, in both scripts.
    When the active store holds an entry for the request, that entry is the
    response.  The network request has been started by then and has not
    settled: the response does not wait for it.  The network settles
    afterwards; an answer of status 200 that the platform's [cache.put]
    accepts replaces the entry of the active store, and any other answer,
    or none, leaves the storage as it was. *)
Theorem stale_entry_served_then_revalidated
        (script : Script) (request : Request) (net : Network)
        (s : CacheStorage) (cached : Response) :
  classify script request = StaleWhileRevalidate ->
  entry_of s NAME (url request) = Some cached ->
  let key := url request in
  let run := dispatch (listener script) net request s in
  result run = Some (Fulfilled (Some cached))
  /\ fetches (before_response (trace run)) = [key]
  /\ settlements (before_response (trace run)) = []
  /\ settlements (trace run) = [(key, net key)]
  /\ match net key with
     | Arrived resp =>
         if (status resp =? 200)%Z && put_accepted key resp
         then entry_of (storage run) NAME key = Some resp
              /\ writes (trace run) = [(NAME, key, resp)]
         else storage run = s /\ writes (trace run) = []
     | Unreachable _ => storage run = s /\ writes (trace run) = []
     end.
Proof.
  intros R C key run. subst run key.
  rewrite dispatch_stale_while_revalidate by exact R.
  unfold swr_run. rewrite C.
  assert (H : has_store s NAME = true).
  { unfold has_store. unfold entry_of in C.
    destruct (store_find s NAME); [reflexivity | discriminate]. }
  rewrite (open_existing _ _ H).
  unfold revalidated, revalidation, stored, put_events.
  destruct (net (url request)) as [resp|e];
    [destruct (status resp =? 200)%Z;
     [destruct (put_accepted (url request) resp)|]|];
    simpl; repeat split.
  now apply entry_of_put_same.
Qed.

(** C6. Stale-while-revalidate, in both scripts, when the network does
    not answer.  The network is asked, once and for the URL of the request,
    and its failure is what settles that request.  With an entry in the
    active store the failure is swallowed: the response is the entry, given
    before the network settled, and the page is served it.  Without one the
    failure surfaces: the response waits for the network, the promise
    given to [event.respondWith] then fulfils with [null], and the page
    receives a network error.  Nothing is written either way. *)
Theorem revalidation_failure_swallowed_or_surfaced
        (script : Script) (request : Request) (net : Network)
        (s : CacheStorage) (reason : Error) :
  classify script request = StaleWhileRevalidate ->
  net (url request) = Unreachable reason ->
  let run := dispatch (listener script) net request s in
  writes (trace run) = []
  /\ fetches (trace run) = [url request]
  /\ settlements (trace run) = [(url request, Unreachable reason)]
  /\ match entry_of s NAME (url request) with
     | Some cached =>
         result run = Some (Fulfilled (Some cached))
         /\ page_result (result run) = Served cached
         /\ settlements (before_response (trace run)) = []
     | None =>
         result run = Some (Fulfilled None)
         /\ page_result (result run) = NetworkError
         /\ settlements (before_response (trace run))
            = [(url request, Unreachable reason)]
     end.
Proof.
  intros R N run. subst run.
  rewrite dispatch_stale_while_revalidate by exact R.
  unfold swr_run, revalidated, revalidation, network_value. rewrite N.
  destruct (entry_of s NAME (url request)); simpl; repeat split.
Qed.

(** C9, as the code has it.  A fetch listener of either script, on any
    request, writes entries only into the active store, opens no store
    but the active one, and deletes none; every other store is left as it
    was, and the only store a listener may create is the active store,
    when it is absent.  A put the platform refuses was aimed at the active
    store too.  Stale-while-revalidate searches the active store alone.
    The lookups of the other routes go through [caches.match]:
    they search the stores of the storage in creation order, up to and
    including the first store that holds an entry for the key, and all of
    them when none does. *)
Theorem fetch_listeners_scoped_to_active_store
        (script : Script) (request : Request) (net : Network)
        (s : CacheStorage) :
  let run := dispatch (listener script) net request s in
  scoped_to NAME s run
  /\ (forall n key r, In (n, key, r) (refusals (trace run)) -> n = NAME)
  /\ reads (trace run)
     = match classify script request with
       | PassThrough => []
       | StaleWhileRevalidate => [NAME]
       | AppShell => stores_searched s (resolve scope "/index.html")
       | CacheFirst | NetworkFallback => stores_searched s (url request)
       end
  /\ forall key,
       match first_entry s key with
       | None => stores_searched s key = store_names s
       | Some r =>
           exists before name c after,
             s = before ++ (name, c) :: after
             /\ first_entry before key = None
             /\ entry_match c key = Some r
             /\ stores_searched s key = store_names before ++ [name]
       end.
Proof.
  intros run. subst run. split; [|split; [|split]].
  - destruct (classify script request) eqn:R.
    + rewrite dispatch_pass_through by exact R. now apply scoped_unchanged.
    + assert (script = sw_js) as ->
        by (destruct script; [reflexivity | route R]).
      rewrite dispatch_cache_first by exact R. apply scoped_cache_first.
    + assert (script = part_000) as ->
        by (destruct script; [route R | reflexivity]).
      rewrite dispatch_app_shell by exact R. apply scoped_cache_or_network.
    + rewrite dispatch_stale_while_revalidate by exact R. apply scoped_swr.
    + rewrite dispatch_network_fallback by exact R.
      apply scoped_cache_or_network.
  - intros n key r I. apply (refusals_scoped _ _ _ _ _ _ _ _ _ I).
  - destruct (classify script request) eqn:R.
    + now rewrite dispatch_pass_through.
    + assert (script = sw_js) as ->
        by (destruct script; [reflexivity | route R]).
      rewrite dispatch_cache_first by exact R.
      unfold cache_first_run, put_events.
      destruct (first_entry s (url request));
        [|destruct (net (url request)) as [resp|e];
          [destruct (put_accepted (url request) resp)|]];
        simpl; trace_obs; rewrite ?app_nil_r; apply reads_lookups.
    + assert (script = part_000) as ->
        by (destruct script; [route R | reflexivity]).
      rewrite dispatch_app_shell by exact R. unfold cache_or_network_run.
      destruct (first_entry s _); [|destruct (net _)];
        simpl; trace_obs; rewrite ?app_nil_r; apply reads_lookups.
    + rewrite dispatch_stale_while_revalidate by exact R.
      unfold swr_run, revalidation, put_events.
      destruct (entry_of s NAME (url request));
        (destruct (net (url request)) as [resp|e];
         [destruct (status resp =? 200)%Z;
          [destruct (put_accepted (url request) resp)|]|]); reflexivity.
    + rewrite dispatch_network_fallback by exact R.
      unfold cache_or_network_run.
      destruct (first_entry s _); [|destruct (net _)];
        simpl; trace_obs; rewrite ?app_nil_r; apply reads_lookups.
  - intros key. apply stores_searched_spec.
Qed.


(** C3. Activation.  Once the activate listener has run, no store of any
    other name than the active one exists, the active store is what it
    was, and the stores that exist are exactly the active store, or none
    when it had not been created.  After an install under a version tag
    the active store exists, so activation leaves exactly that store: the
    store of any previous version tag, such as v2 when the tag is v3, is
    gone. *)
Theorem activation_leaves_only_active_store
        (assets : list string) (net : Network) (s : CacheStorage) :
  wf s ->
  let after := storage (activate_listener CACHE_VERSION s) in
  (forall other, other <> NAME -> has_store after other = false)
  /\ store_find after NAME = store_find s NAME
  /\ store_names after = (if has_store s NAME then [NAME] else [])
  /\ let installed :=
       storage (install_listener CACHE_VERSION scope assets net s) in
     let activated := storage (activate_listener CACHE_VERSION installed) in
     store_names activated = [NAME]
     /\ forall previous, previous <> CACHE_VERSION ->
          has_store activated (CACHE_NAME previous) = false.
Proof.
  intros W after. subst after. rewrite activate_storage.
  assert (O : forall t other, other <> NAME ->
              has_store (filter (fun p => String.eqb (fst p) NAME) t) other
              = false).
  { intros t other N. unfold has_store. rewrite filter_name_find.
    destruct (String.eqb NAME other) eqn:E; [|reflexivity].
    apply String.eqb_eq in E. congruence. }
  split; [apply O|]. split.
  { rewrite filter_name_find. now rewrite String.eqb_refl. }
  split; [now apply filter_name_names|].
  intros installed activated. subst activated. rewrite activate_storage.
  assert (Wi : wf installed /\ has_store installed NAME = true).
  { subst installed. split.
    - unfold wf. rewrite install_storage. now apply wf_open.
    - apply store_find_In. rewrite install_storage.
      apply store_find_In. apply has_store_open. }
  destruct Wi as [Wi Hi]. split.
  - rewrite filter_name_names by exact Wi. now rewrite Hi.
  - intros previous N. apply O. intros E. apply N. now apply CACHE_NAME_inj.
Qed.

(** C5. Install.  When some URL of the manifest is not fetchable at
    install time (the network does not answer it, or answers it with a
    status that is not ok), the promise the install listener waits on
    rejects, so the install step fails; no entry of the manifest is
    written: every entry of every store is what it was, the active store
    having been opened, and created empty when it was absent. *)
Theorem install_fails_atomically
        (assets : list string) (net : Network) (s : CacheStorage) :
  (exists path, In path assets
                /\ fetchable net (resolve scope path) = false) ->
  let run := install_listener CACHE_VERSION scope assets net s in
  (exists reason, result run = Rejected reason)
  /\ writes (trace run) = []
  /\ storage run = open_or_create s NAME
  /\ (forall name key, entry_of (storage run) name key = entry_of s name key)
  /\ (has_store s NAME = true -> storage run = s).
Proof.
  intros (path & I & F) run. subst run.
  unfold install_listener, bind, caches_open, cache_addAll.
  rewrite fetched_all_fails.
  - simpl. split; [eexists; reflexivity|]. split.
    + rewrite writes_app.
      assert (A : forall keys, writes (map FetchStart keys) = [])
        by (induction keys; simpl; auto).
      assert (B : forall keys,
                 writes (map (fun k => FetchSettle k (net k)) keys) = [])
        by (induction keys; simpl; auto).
      now rewrite A, B.
    + split; [reflexivity|]. split.
      * intros name key. apply entry_of_open.
      * apply open_existing.
  - exists (resolve scope path). split; [|exact F].
    apply in_map_iff. exists path. auto.
Qed.

End Policy.

(** * Concrete runs *)

(** The stylesheet is in two stores, the store of an earlier version,
    created first, and the active store: the response is the entry of the
    earlier store.  While the next version is being installed its store
    holds the stylesheet and the active store does not: the entry of that
    store is served and the network is not asked.  And on a miss answered
    with a partial response, status 206, the response is served and
    nothing is stored. *)
Lemma cache_first_answers_from_another_store :
  let key := url Sample.stylesheet in
  let active := CACHE_NAME SwJs.CACHE_VERSION in
  let leftover := [("oha-v1", [(key, Sample.stale)]);
                   (active, [(key, Sample.fresh)])] in
  let upgrading := [(active, []); ("oha-v3", [(key, Sample.fresh)])] in
  let ranged :=
    dispatch (deployed sw_js) Sample.partial Sample.stylesheet [(active, [])] in
  classify sw_js Sample.stylesheet = CacheFirst
  /\ entry_of leftover active key = Some Sample.fresh
  /\ result (dispatch (deployed sw_js) Sample.online Sample.stylesheet leftover)
     = Some (Fulfilled (Some Sample.stale))
  /\ Sample.stale <> Sample.fresh
  /\ entry_of upgrading active key = None
  /\ fetches (trace (dispatch (deployed sw_js) Sample.not_found
                              Sample.stylesheet upgrading)) = []
  /\ result (dispatch (deployed sw_js) Sample.not_found Sample.stylesheet
                      upgrading)
     = Some (Fulfilled (Some Sample.fresh))
  /\ result ranged = Some (Fulfilled (Some Sample.ranged))
  /\ storage ranged = [(active, [])].
Proof.
  repeat split; try reflexivity. discriminate.
Qed.

(** The active store holds a photo; the network answers the revalidation
    with status 200 and a [Vary] header of [*].  The platform refuses the
    put: the store still holds the earlier response, not the latest
    network answer. *)
Lemma refused_revalidation_keeps_stale_entry :
  let active := CACHE_NAME SwJs.CACHE_VERSION in
  let key := url Sample.photo in
  let s := [(active, [(key, Sample.stale)])] in
  let run := dispatch (deployed sw_js) Sample.varies Sample.photo s in
  classify sw_js Sample.photo = StaleWhileRevalidate
  /\ Sample.varies key = Arrived Sample.varying
  /\ status Sample.varying = 200%Z
  /\ result run = Some (Fulfilled (Some Sample.stale))
  /\ settlements (trace run) = [(key, Arrived Sample.varying)]
  /\ entry_of (storage run) active key = Some Sample.stale
  /\ Sample.stale <> Sample.varying.
Proof.
  repeat split; try reflexivity. discriminate.
Qed.

(** A first install during which the icon cannot be fetched: the install
    fails, and the storage, empty before, now holds the active store,
    empty. *)
Lemma failed_install_leaves_empty_store :
  let run := install_listener SwJs.CACHE_VERSION Sample.site SwJs.CORE_ASSETS
                              Sample.icon_down [] in
  In "/favicon.svg" SwJs.CORE_ASSETS
  /\ Sample.icon_down (resolve Sample.site "/favicon.svg")
     = Unreachable Sample.failure
  /\ result run = Rejected (TypeError "addAll: request failed")
  /\ storage run = [(CACHE_NAME SwJs.CACHE_VERSION, [])]
  /\ storage run <> [].
Proof.
  repeat split; try reflexivity; [simpl; tauto | discriminate].
Qed.


(** The default route searches, and answers from, a store that is not the
    active one; and stale-while-revalidate creates the active store when
    it does not exist. *)
Lemma strategies_reach_beyond_active_store :
  let active := CACHE_NAME SwJs.CACHE_VERSION in
  let key := url Sample.page_json in
  let upgrading := [(active, []); ("oha-v3", [(key, Sample.fresh)])] in
  classify sw_js Sample.page_json = NetworkFallback
  /\ reads (trace (dispatch (deployed sw_js) Sample.offline Sample.page_json
                            upgrading))
     = [active; "oha-v3"]
  /\ result (dispatch (deployed sw_js) Sample.offline Sample.page_json
                      upgrading)
     = Some (Fulfilled (Some Sample.fresh))
  /\ "oha-v3" <> active
  /\ classify sw_js Sample.photo = StaleWhileRevalidate
  /\ store_names (storage (dispatch (deployed sw_js) Sample.offline
                                    Sample.photo []))
     = [active].
Proof.
  repeat split; try reflexivity. discriminate.
Qed.

(** Routing of the sample requests. *)

Example sample_routes :
  map (classify sw_js)
      [Sample.stylesheet; Sample.photo; Sample.page_json; Sample.navigation;
       Sample.form_post]
  = [CacheFirst; StaleWhileRevalidate; NetworkFallback; NetworkFallback;
     PassThrough]
  /\ map (classify part_000)
         [Sample.stylesheet; Sample.photo; Sample.page_json; Sample.navigation;
          Sample.form_post]
     = [NetworkFallback; StaleWhileRevalidate; NetworkFallback; AppShell;
        PassThrough].
Proof. split; reflexivity. Qed.

Example router_string_tests :
  endsWith "/assets/css/main.css" ".css" = true
  /\ endsWith "css" ".css" = false
  /\ image_extension_test "/favicon.svg" = true
  /\ image_extension_test "/favicon.svg.txt" = false
  /\ image_extension_test "/logo.PNG" = false
  /\ startsWith "/assets/media/freepik-luxury-800.webp" "/assets/media" = true
  /\ startsWith "/static/assets/media/a" "/assets/media" = false.
Proof. repeat split. Qed.

(** What [cache.put] accepts. *)

Example put_refusals :
  put_accepted (url Sample.stylesheet) Sample.fresh = true
  /\ put_accepted (url Sample.stylesheet) Sample.missing = true
  /\ put_accepted (url Sample.stylesheet) Sample.ranged = false
  /\ put_accepted (url Sample.stylesheet) Sample.varying = false
  /\ put_accepted (url Sample.stylesheet)
                  (mkResponse 200 [("vary", "Accept-Encoding , *")] "") = false
  /\ put_accepted (url Sample.stylesheet)
                  (mkResponse 200 [("Vary", "Accept-Encoding")] "") = true
  /\ put_accepted (mkURL "chrome-extension://abc" "/inject.css" "")
                  Sample.fresh = false
  /\ put_accepted (mkURL "http://localhost:8080" "/a.css" "") Sample.fresh
     = true.
Proof. repeat split. Qed.

(** The scenarios of the specification. *)

Example stylesheet_fetched_then_served_offline :
  let first := dispatch (deployed sw_js) Sample.online Sample.stylesheet [] in
  let again :=
    dispatch (deployed sw_js) Sample.offline Sample.stylesheet (storage first) in
  page_result (result first) = Served Sample.fresh
  /\ page_result (result again) = Served Sample.fresh
  /\ fetches (trace again) = [].
Proof. repeat split. Qed.

Example photo_served_stale_then_refreshed :
  let active := CACHE_NAME SwJs.CACHE_VERSION in
  let s := [(active, [(url Sample.photo, Sample.stale)])] in
  let run := dispatch (deployed sw_js) Sample.online Sample.photo s in
  page_result (result run) = Served Sample.stale
  /\ storage run = [(active, [(url Sample.photo, Sample.fresh)])].
Proof. repeat split. Qed.

Example page_json_fails_offline :
  let run := dispatch (deployed sw_js) Sample.offline Sample.page_json [] in
  result run = Some (Rejected Sample.failure)
  /\ page_result (result run) = NetworkError
  /\ storage run = [].
Proof. repeat split. Qed.

Example install_then_activate_drops_older_stores :
  let s := [("oha-v1", [(url Sample.stylesheet, Sample.stale)])] in
  let installed :=
    storage (install_listener SwJs.CACHE_VERSION Sample.site SwJs.CORE_ASSETS
                              Sample.online s) in
  store_names installed = ["oha-v1"; "oha-v2"]
  /\ store_names
       (storage (activate_listener SwJs.CACHE_VERSION installed))
     = ["oha-v2"].
Proof. repeat split. Qed.

Lemma cache_first_serves_first_entry_witness :
  classify sw_js Sample.stylesheet = CacheFirst
  /\ result (dispatch (deployed sw_js) Sample.online Sample.stylesheet [])
     = Some (Fulfilled (Some Sample.fresh))
  /\ entry_of (storage (dispatch (deployed sw_js) Sample.online
                                 Sample.stylesheet []))
              (CACHE_NAME SwJs.CACHE_VERSION) (url Sample.stylesheet)
     = Some Sample.fresh.
Proof.
  assert (R : classify sw_js Sample.stylesheet = CacheFirst) by reflexivity.
  split; [exact R|].
  pose proof (cache_first_serves_first_entry SwJs.CACHE_VERSION Sample.site
                Sample.stylesheet Sample.online [] R) as T.
  simpl in T. destruct T as [[_ [A [_ B]]] _]. split; [exact A | exact B].
Defined.

Lemma stale_entry_served_then_revalidated_witness :
  let s := [(CACHE_NAME SwJs.CACHE_VERSION, [(url Sample.photo, Sample.stale)])] in
  classify sw_js Sample.photo = StaleWhileRevalidate
  /\ entry_of s (CACHE_NAME SwJs.CACHE_VERSION) (url Sample.photo)
     = Some Sample.stale
  /\ result (dispatch (deployed sw_js) Sample.online Sample.photo s)
     = Some (Fulfilled (Some Sample.stale))
  /\ entry_of (storage (dispatch (deployed sw_js) Sample.online Sample.photo s))
              (CACHE_NAME SwJs.CACHE_VERSION) (url Sample.photo)
     = Some Sample.fresh.
Proof.
  intros s.
  assert (R : classify sw_js Sample.photo = StaleWhileRevalidate) by reflexivity.
  assert (C : entry_of s (CACHE_NAME SwJs.CACHE_VERSION) (url Sample.photo)
              = Some Sample.stale) by reflexivity.
  split; [exact R|]. split; [exact C|].
  pose proof (stale_entry_served_then_revalidated SwJs.CACHE_VERSION Sample.site
                sw_js Sample.photo Sample.online s Sample.stale R C) as T.
  simpl in T. destruct T as [A [_ [_ [_ [B _]]]]]. split; [exact A | exact B].
Defined.

Lemma activation_leaves_only_active_store_witness :
  let s := [("oha-v2", [(url Sample.stylesheet, Sample.stale)])] in
  let installed :=
    storage (install_listener "v3" Sample.site SwJs.CORE_ASSETS
                              Sample.online s) in
  let activated := storage (activate_listener "v3" installed) in
  wf s
  /\ store_names activated = ["oha-v3"]
  /\ has_store activated "oha-v2" = false.
Proof.
  intros s installed activated.
  assert (W : wf s).
  { unfold wf. simpl. constructor; [intros [] | constructor]. }
  split; [exact W|].
  pose proof (activation_leaves_only_active_store "v3" Sample.site
                SwJs.CORE_ASSETS Sample.online s W) as T.
  simpl in T. destruct T as [_ [_ [_ [A B]]]]. split; [exact A|].
  apply (B "v2"). intros E. discriminate E.
Defined.

Lemma non_get_request_passes_through_witness :
  method Sample.form_post <> "GET"
  /\ result (dispatch (deployed sw_js) Sample.online Sample.form_post []) = None
  /\ trace (dispatch (deployed part_000) Sample.online Sample.form_post []) = [].
Proof.
  assert (G : method Sample.form_post <> "GET")
    by (apply String.eqb_neq; reflexivity).
  split; [exact G|]. split.
  - exact (proj1 (non_get_request_passes_through SwJs.CACHE_VERSION Sample.site
                    sw_js Sample.form_post Sample.online [] G)).
  - exact (proj2 (proj2 (proj2
            (non_get_request_passes_through Part000.CACHE_VERSION Sample.site
               part_000 Sample.form_post Sample.online [] G)))).
Defined.

Lemma install_fails_atomically_witness :
  let run := install_listener SwJs.CACHE_VERSION Sample.site SwJs.CORE_ASSETS
                              Sample.icon_down [] in
  (exists path, In path SwJs.CORE_ASSETS
                /\ fetchable Sample.icon_down (resolve Sample.site path) = false)
  /\ (exists reason, result run = Rejected reason)
  /\ storage run = [(CACHE_NAME SwJs.CACHE_VERSION, [])].
Proof.
  intros run.
  assert (F : exists path, In path SwJs.CORE_ASSETS
              /\ fetchable Sample.icon_down (resolve Sample.site path) = false).
  { exists "/favicon.svg". split; [simpl; tauto | reflexivity]. }
  split; [exact F|].
  pose proof (install_fails_atomically SwJs.CACHE_VERSION Sample.site
                SwJs.CORE_ASSETS Sample.icon_down [] F) as T.
  simpl in T. destruct T as [A [_ [B _]]]. split; [exact A | exact B].
Defined.

Lemma revalidation_failure_swallowed_or_surfaced_witness :
  classify sw_js Sample.photo = StaleWhileRevalidate
  /\ Sample.offline (url Sample.photo) = Unreachable Sample.failure
  /\ page_result (result (dispatch (deployed sw_js) Sample.offline
                                   Sample.photo []))
     = NetworkError.
Proof.
  assert (R : classify sw_js Sample.photo = StaleWhileRevalidate) by reflexivity.
  assert (N : Sample.offline (url Sample.photo) = Unreachable Sample.failure)
    by reflexivity.
  split; [exact R|]. split; [exact N|].
  pose proof (revalidation_failure_swallowed_or_surfaced SwJs.CACHE_VERSION
                Sample.site sw_js Sample.photo Sample.offline []
                Sample.failure R N) as T.
  simpl in T. destruct T as [_ [_ [_ [_ [A _]]]]]. exact A.
Defined.

Lemma network_fallback_never_writes_witness :
  classify sw_js Sample.page_json = NetworkFallback
  /\ result (dispatch (deployed sw_js) Sample.offline Sample.page_json [])
     = Some (Rejected Sample.failure)
  /\ storage (dispatch (deployed sw_js) Sample.offline Sample.page_json []) = [].
Proof.
  assert (R : classify sw_js Sample.page_json = NetworkFallback) by reflexivity.
  split; [exact R|].
  pose proof (network_fallback_never_writes SwJs.CACHE_VERSION Sample.site
                sw_js Sample.page_json Sample.offline [] R) as T.
  simpl in T. destruct T as [A [_ [_ [_ B]]]]. split; [exact B | exact A].
Defined.

Lemma navigation_serves_app_shell_witness :
  let index := resolve Sample.site "/index.html" in
  let s := [(CACHE_NAME Part000.CACHE_VERSION, [(index, Sample.stale)])] in
  method Sample.navigation = "GET"
  /\ mode Sample.navigation = "navigate"
  /\ result (dispatch (fetch_listener Part000.CACHE_VERSION Sample.site part_000)
                      Sample.online Sample.navigation s)
     = Some (Fulfilled (Some Sample.stale)).
Proof.
  intros index s.
  assert (G : method Sample.navigation = "GET") by reflexivity.
  assert (N : mode Sample.navigation = "navigate") by reflexivity.
  split; [exact G|]. split; [exact N|].
  pose proof (navigation_serves_app_shell Part000.CACHE_VERSION Sample.site
                Sample.navigation Sample.online s G N) as T.
  simpl in T. destruct T as [_ [_ [A _]]]. exact A.
Defined.

Lemma fetch_listeners_scoped_to_active_store_witness :
  let active := CACHE_NAME SwJs.CACHE_VERSION in
  let upgrading :=
    [(active, []); ("oha-v3", [(url Sample.page_json, Sample.fresh)]);
     ("fonts", [])] in
  reads (trace (dispatch (deployed sw_js) Sample.online Sample.photo
                         upgrading))
  = [active]
  /\ reads (trace (dispatch (deployed sw_js) Sample.online Sample.page_json
                            upgrading))
     = [active; "oha-v3"].
Proof.
  intros active upgrading. split.
  - exact (proj1 (proj2 (proj2 (fetch_listeners_scoped_to_active_store
                                  SwJs.CACHE_VERSION Sample.site sw_js
                                  Sample.photo Sample.online upgrading)))).
  - exact (proj1 (proj2 (proj2 (fetch_listeners_scoped_to_active_store
                                  SwJs.CACHE_VERSION Sample.site sw_js
                                  Sample.page_json Sample.online
                                  upgrading)))).
Defined.


(** * Further properties of the listeners *)

(** ** Entries of one store *)

Lemma entry_match_In (c : Cache) (key : URL) (r : Response) :
  entry_match c key = Some r -> In (key, r) c.
Proof.
  induction c as [|[k r'] c IH]; simpl; [discriminate|].
  destruct (URL_eqb k key) eqn:E.
  - apply URL_eqb_eq in E. subst k. intros X. inversion X. now left.
  - intros X. right. now apply IH.
Qed.

Lemma entry_match_absent (c : Cache) (key : URL) :
  ~ In key (map fst c) -> entry_match c key = None.
Proof.
  induction c as [|[k r] c IH]; simpl; [reflexivity|]. intros N.
  destruct (URL_eqb k key) eqn:E.
  - apply URL_eqb_eq in E. tauto.
  - apply IH. tauto.
Qed.

Lemma entry_match_present (c : Cache) (key : URL) :
  In key (map fst c) -> exists r, entry_match c key = Some r.
Proof.
  induction c as [|[k r] c IH]; simpl; [intros []|]. intros I.
  destruct (URL_eqb k key) eqn:E; [now exists r|].
  apply URL_eqb_neq in E. destruct I as [I | I]; [congruence | now apply IH].
Qed.

(** A batch of puts leaves, for each key, the last response put under it,
    and the entry there was when the batch has none. *)
Lemma entry_match_populated (batch : list (URL * Response)) (c : Cache)
      (key : URL) :
  entry_match (fold_left (fun c e => entry_put (fst e) (snd e) c) batch c) key
  = match entry_match (rev batch) key with
    | Some r => Some r
    | None => entry_match c key
    end.
Proof.
  induction batch as [|[k r] batch IH] using rev_ind; [reflexivity|].
  rewrite fold_left_app, rev_app_distr. simpl.
  destruct (URL_eqb k key) eqn:E.
  - apply URL_eqb_eq in E. subst k. apply entry_match_put_same.
  - apply URL_eqb_neq in E. rewrite entry_match_put_other by exact E. exact IH.
Qed.

Lemma entry_of_update (s : CacheStorage) (name n : string) (key : URL) f :
  (forall c, entry_match (f c) key = entry_match c key) ->
  entry_of (store_update s name f) n key = entry_of s n key.
Proof.
  intros H. unfold entry_of. destruct (String.eqb n name) eqn:E.
  - apply String.eqb_eq in E. subst n. rewrite store_find_update_same.
    destruct (store_find s name); simpl; [apply H | reflexivity].
  - apply String.eqb_neq in E. now rewrite store_find_update_other.
Qed.

Lemma entry_of_put_other_key (s : CacheStorage) (name n : string)
      (k key : URL) (r : Response) :
  k <> key ->
  entry_of (store_update s name (entry_put k r)) n key = entry_of s n key.
Proof.
  intros N. apply entry_of_update. intros c. now apply entry_match_put_other.
Qed.

Lemma entry_of_stored_other (s : CacheStorage) (name n : string)
      (k key : URL) (r : Response) :
  k <> key -> entry_of (stored name k r s) n key = entry_of s n key.
Proof.
  intros N. unfold stored. destruct (put_accepted k r); [|reflexivity].
  now apply entry_of_put_other_key.
Qed.

(** ** What [cache.addAll] fetched *)

Lemma fetched_all_answers (results : list FetchResult)
      (responses : list Response) :
  fetched_all results = Some responses ->
  map Arrived responses = results /\ forallb ok responses = true.
Proof.
  revert responses. induction results as [|[r|e] results IH]; simpl;
    intros responses H.
  - inversion H. auto.
  - destruct (ok r) eqn:O; [|discriminate].
    destruct (fetched_all results) as [rs|]; [|discriminate].
    inversion H. subst. destruct (IH rs eq_refl) as [A B].
    simpl. rewrite A, O, B. auto.
  - discriminate.
Qed.

Lemma fetched_all_succeeds (net : Network) (keys : list URL) :
  (forall key, In key keys -> fetchable net key = true) ->
  exists responses, fetched_all (map net keys) = Some responses.
Proof.
  unfold fetchable. induction keys as [|k keys IH]; simpl; intros H.
  - now exists [].
  - pose proof (H k (or_introl eq_refl)) as Hk.
    destruct (net k) as [r|e]; [|discriminate]. rewrite Hk.
    destruct IH as [rs E]; [intros; apply H; now right|].
    rewrite E. simpl. now exists (r :: rs).
Qed.

Lemma batch_bindings (net : Network) (keys : list URL)
      (responses : list Response) :
  map Arrived responses = map net keys ->
  (forall k r, In (k, r) (combine keys responses) -> net k = Arrived r)
  /\ map fst (combine keys responses) = keys.
Proof.
  revert responses. induction keys as [|k keys IH]; intros [|r rs] H;
    simpl in *; try discriminate; [split; [intros ? ? []|reflexivity]|].
  inversion H as [[H1 H2]]. destruct (IH rs H2) as [A B]. split.
  - intros k' r' [X | X]; [inversion X; subst; auto | now apply A].
  - now rewrite B.
Qed.

Lemma install_run (version scope : string) (assets : list string)
      (net : Network) (s : CacheStorage) :
  install_listener version scope assets net s =
  let r := cache_addAll net (CACHE_NAME version)
                        (map (resolve scope) assets)
                        (open_or_create s (CACHE_NAME version)) in
  mkRun (result r) (storage r) (CachesOpen (CACHE_NAME version) :: trace r).
Proof.
  unfold install_listener, bind, caches_open.
  destruct (cache_addAll _ _ _ _). reflexivity.
Qed.

Lemma observe_fetch_events (net : Network) (keys : list URL) :
  let t := map FetchStart keys ++ map (fun k => FetchSettle k (net k)) keys in
  writes t = [] /\ opened t = [] /\ deleted t = [] /\ reads t = []
  /\ fetches t = keys.
Proof.
  simpl. rewrite writes_app, opened_app, deleted_app, reads_app, fetches_app.
  assert (A : forall l, writes (map FetchStart l) = []
                        /\ opened (map FetchStart l) = []
                        /\ deleted (map FetchStart l) = []
                        /\ reads (map FetchStart l) = []
                        /\ fetches (map FetchStart l) = l).
  { induction l as [|k l IH]; simpl; [tauto|].
    destruct IH as (? & ? & ? & ? & ->). tauto. }
  assert (B : forall l, writes (map (fun k => FetchSettle k (net k)) l) = []
                        /\ opened (map (fun k => FetchSettle k (net k)) l) = []
                        /\ deleted (map (fun k => FetchSettle k (net k)) l) = []
                        /\ reads (map (fun k => FetchSettle k (net k)) l) = []
                        /\ fetches (map (fun k => FetchSettle k (net k)) l) = []).
  { induction l as [|k l IH]; simpl; tauto. }
  destruct (A keys) as (-> & -> & -> & -> & ->).
  destruct (B keys) as (-> & -> & -> & -> & ->).
  simpl. rewrite app_nil_r. repeat split.
Qed.

Lemma observe_batch_puts (name : string) (batch : list (URL * Response)) :
  let t := map (fun e => CachePut name (fst e) (snd e)) batch in
  writes t = map (fun e => (name, fst e, snd e)) batch
  /\ opened t = [] /\ deleted t = [] /\ reads t = [] /\ fetches t = [].
Proof.
  simpl. induction batch as [|e batch IH]; simpl; [tauto|].
  destruct IH as (-> & ? & ? & ? & ?). tauto.
Qed.

Lemma promise_all_trace (names : list string) (s : CacheStorage) :
  trace (promise_all (map caches_delete names) s) = map CachesDelete names
  /\ (NoDup names -> (forall k, In k names -> has_store s k = true) ->
      result (promise_all (map caches_delete names) s)
      = map (fun _ => true) names).
Proof.
  revert s. induction names as [|n names IH]; intros s; simpl; [auto|].
  unfold bind. simpl.
  destruct (IH (filter (fun p => negb (String.eqb (fst p) n)) s)) as [T R].
  destruct (promise_all (map caches_delete names) _) as [bs s' t].
  simpl in *. subst t. rewrite app_nil_r. split; [reflexivity|].
  intros D H. inversion D as [|? ? Nin D']; subst.
  rewrite (H n (or_introl eq_refl)). f_equal. apply R; [exact D'|].
  intros k I. pose proof (H k (or_intror I)) as Hk.
  unfold has_store in *. clear - Hk I Nin.
  induction s as [|[m c] s IHs]; simpl in *; [discriminate|].
  destruct (String.eqb m k) eqn:E.
  - apply String.eqb_eq in E. subst m.
    destruct (String.eqb k n) eqn:E'.
    + apply String.eqb_eq in E'. subst. contradiction.
    + simpl. now rewrite String.eqb_refl.
  - destruct (String.eqb m n); simpl; rewrite ?E; now apply IHs.
Qed.




Section Lifecycle.

Variables CACHE_VERSION scope : string.
Variable CORE_ASSETS : list string.

Local Abbreviation NAME := (CACHE_NAME CACHE_VERSION).
Local Abbreviation install := (install_listener CACHE_VERSION scope CORE_ASSETS).
Local Abbreviation manifest := (map (resolve scope) CORE_ASSETS).

(** X1. Install, when every URL of the manifest is fetchable: the promise
    the listener waits on fulfils, and every URL of the manifest is then an
    entry of the active store, holding the response the network gave for
    it, whatever the storage held before. *)
Theorem install_populates_manifest (net : Network) (s : CacheStorage) :
  (forall path, In path CORE_ASSETS ->
                fetchable net (resolve scope path) = true) ->
  let run := install net s in
  result run = Fulfilled tt
  /\ fetches (trace run) = manifest
  /\ forall path, In path CORE_ASSETS ->
       exists resp,
         net (resolve scope path) = Arrived resp
         /\ ok resp = true
         /\ entry_of (storage run) NAME (resolve scope path) = Some resp.
Proof.
  intros F run. subst run. rewrite install_run. unfold cache_addAll.
  destruct (fetched_all_succeeds net manifest) as [rs E].
  { intros key I. apply in_map_iff in I. destruct I as (p & <- & I). now apply F. }
  rewrite E. cbn [result storage trace].
  destruct (fetched_all_answers _ _ E) as [A O].
  destruct (batch_bindings net manifest rs A) as [B K].
  split; [reflexivity|]. split.
  { cbn [fetches]. rewrite fetches_app.
    rewrite (proj2 (proj2 (proj2 (proj2 (observe_fetch_events net manifest))))).
    rewrite (proj2 (proj2 (proj2 (proj2 (observe_batch_puts NAME _))))).
    apply app_nil_r. }
  intros path I.
  assert (I' : In (resolve scope path) (map fst (rev (combine manifest rs)))).
  { rewrite map_rev, <- in_rev, K. apply in_map_iff. now exists path. }
  destruct (entry_match_present _ _ I') as [resp M].
  pose proof (entry_match_In _ _ _ M) as J. apply in_rev in J.
  pose proof (B _ _ J) as N.
  exists resp. split; [exact N|]. split.
  - specialize (F path I). unfold fetchable in F. now rewrite N in F.
  - unfold entry_of. rewrite store_find_update_same.
    pose proof (has_store_open NAME s) as H. unfold has_store in H.
    destruct (store_find (open_or_create s NAME) NAME); [|discriminate].
    simpl. rewrite entry_match_populated. now rewrite M.
Qed.

(** X2. Install, whatever the network does: it opens the active store and
    no other, deletes no store, and writes only into the active store and
    only under URLs of the manifest.  Every other store is left as it
    was, and so is every entry of the active store whose key is not a URL
    of the manifest. *)
Theorem install_touches_only_manifest (net : Network) (s : CacheStorage) :
  let run := install net s in
  opened (trace run) = [NAME]
  /\ deleted (trace run) = []
  /\ (forall n key r, In (n, key, r) (writes (trace run)) ->
        n = NAME /\ In key manifest /\ net key = Arrived r)
  /\ (forall other, other <> NAME ->
        store_find (storage run) other = store_find s other)
  /\ (forall n key, ~ In key manifest ->
        entry_of (storage run) n key = entry_of s n key).
Proof.
  intros run. subst run. rewrite install_run. unfold cache_addAll.
  destruct (observe_fetch_events net manifest) as (W & O & D & _ & _).
  simpl in W, O, D.
  destruct (fetched_all (map net manifest)) as [rs|] eqn:E;
    cbn [result storage trace writes opened deleted].
  - destruct (fetched_all_answers _ _ E) as [A _].
    destruct (batch_bindings net manifest rs A) as [B K].
    destruct (observe_batch_puts NAME (combine manifest rs))
      as (W' & O' & D' & _ & _). simpl in W', O', D'.
    rewrite opened_app, deleted_app, writes_app, W, O, D, W', O', D'.
    split; [reflexivity|]. split; [reflexivity|]. split; [|split].
    + simpl. intros n key r I. apply in_map_iff in I.
      destruct I as ([k r'] & X & I). inversion X; subst. simpl in *.
      split; [reflexivity|]. split; [|now apply B].
      rewrite <- K. apply in_map_iff. now exists (key, r).
    + intros other N. rewrite store_find_update_other by exact N.
      now apply store_find_open_other.
    + intros n key N. rewrite entry_of_update; [apply entry_of_open|].
      intros c. rewrite entry_match_populated.
      rewrite entry_match_absent; [reflexivity|].
      now rewrite map_rev, <- in_rev, K.
  - rewrite W, O, D.
    split; [reflexivity|]. split; [reflexivity|]. split; [intros ? ? ? []|].
    split.
    + intros other N. now apply store_find_open_other.
    + intros n key _. apply entry_of_open.
Qed.

(** X3. Activation makes one call to [caches.keys] and then deletes, in
    creation order, exactly the stores whose name is not the active one: it
    opens, searches and writes no store and asks the network nothing.  On a
    storage with unique names every deletion reports that the store
    existed. *)
Theorem activation_only_deletes_other_stores (s : CacheStorage) :
  let others :=
    filter (fun k => negb (String.eqb k NAME)) (store_names s) in
  let run := activate_listener CACHE_VERSION s in
  trace run = CachesKeys :: map CachesDelete others
  /\ (wf s -> result run = Fulfilled (map (fun _ => true) others)).
Proof.
  intros others run. subst run. unfold activate_listener, bind, caches_keys.
  fold others.
  destruct (promise_all_trace others s) as [T R].
  destruct (promise_all (map caches_delete others) s) as [bs s' t].
  simpl in *. subst t. rewrite app_nil_r. split; [reflexivity|].
  intros W. f_equal. apply R.
  - subst others. apply NoDup_filter. exact W.
  - intros k I. subst others. apply filter_In in I. apply store_find_In. tauto.
Qed.

(** X4. Activation is idempotent: a second activation finds nothing to
    delete and leaves the storage as the first left it.  On a storage that
    holds the active store alone, activation changes nothing. *)
Theorem activation_is_idempotent (s : CacheStorage) :
  let once := activate_listener CACHE_VERSION s in
  let again := activate_listener CACHE_VERSION (storage once) in
  storage again = storage once
  /\ deleted (trace again) = []
  /\ (store_names s = [NAME] -> storage once = s).
Proof.
  intros once again. subst once again. rewrite !activate_storage.
  assert (I : forall t : CacheStorage,
            filter (fun p => String.eqb (fst p) NAME)
                   (filter (fun p => String.eqb (fst p) NAME) t)
            = filter (fun p => String.eqb (fst p) NAME) t).
  { induction t as [|[n c] t IH]; simpl; [reflexivity|].
    destruct (String.eqb n NAME) eqn:E; simpl; rewrite ?E, IH; reflexivity. }
  split; [apply I|]. split.
  - unfold activate_listener, bind, caches_keys.
    match goal with
    | |- context [promise_all (map caches_delete ?l) ?t] =>
        destruct (promise_all_delete l t) as (_ & D & _);
        destruct (promise_all (map caches_delete l) t) as [bs s' tr];
        assert (L : l = [])
    end.
    { unfold store_names. clear.
      induction s as [|[n c] t IH]; simpl; [reflexivity|].
      destruct (String.eqb n NAME) eqn:E; simpl; [|exact IH].
      rewrite E. simpl. exact IH. }
    simpl in *. rewrite deleted_app, D, L. reflexivity.
  - destruct s as [|[n c] [|? ?]]; simpl; try discriminate.
    intros E. injection E as ->. now rewrite String.eqb_refl.
Qed.



End Lifecycle.

(** ** The fetch listeners *)

Lemma classify_get (script : Script) (request : Request) :
  classify script request = PassThrough <-> method request <> "GET".
Proof.
  unfold classify. rewrite <- String.eqb_neq.
  destruct (String.eqb (method request) "GET"); simpl.
  - split; [|discriminate].
    destruct script, (is_style request), (is_image request),
      (String.eqb (mode request) "navigate"); discriminate.
  - tauto.
Qed.

Lemma classify_cache_first_script (script : Script) (request : Request) :
  classify script request = CacheFirst -> script = sw_js.
Proof. intros R. destruct script; [reflexivity | route R]. Qed.

Lemma classify_app_shell_script (script : Script) (request : Request) :
  classify script request = AppShell ->
  script = part_000 /\ mode request = "navigate".
Proof.
  intros R. destruct script; [route R|]. split; [reflexivity|].
  route R. now apply String.eqb_eq.
Qed.

Section Listeners.

Variables CACHE_VERSION scope : string.

Local Abbreviation NAME := (CACHE_NAME CACHE_VERSION).
Local Abbreviation listener := (fetch_listener CACHE_VERSION scope).
Local Abbreviation index := (resolve scope "/index.html").

(** X7. The two scripts differ only on stylesheets and navigations: on a
    request that [src/sw.js] does not treat as a stylesheet and that is not
    a navigation, the two fetch listeners do the same thing, call for call,
    and leave the same storage. *)
Theorem scripts_agree_off_styles_and_navigations
        (request : Request) (net : Network) (s : CacheStorage) :
  is_style request = false ->
  mode request <> "navigate" ->
  dispatch (listener sw_js) net request s
  = dispatch (listener part_000) net request s.
Proof.
  intros S N. apply String.eqb_neq in N.
  assert (C : classify sw_js request = classify part_000 request)
    by (unfold classify; now rewrite S, N).
  destruct (classify sw_js request) eqn:R; symmetry in C.
  - now rewrite !dispatch_pass_through.
  - route R; congruence.
  - route R; congruence.
  - now rewrite !dispatch_stale_while_revalidate.
  - now rewrite !dispatch_network_fallback.
Qed.

(** X8. Stale-while-revalidate on a miss, in both scripts.  Only the
    active store is searched, so an entry another store may hold is not
    used.  The response waits for the network and is the network's answer
    whatever its status.  The answer becomes the entry of the active store
    only when its status is 200 and the platform's [cache.put] accepts it;
    otherwise the active store still has no entry for the request. *)
Theorem revalidation_miss_waits_for_network
        (script : Script) (request : Request) (net : Network)
        (s : CacheStorage) :
  classify script request = StaleWhileRevalidate ->
  entry_of s NAME (url request) = None ->
  let key := url request in
  let run := dispatch (listener script) net request s in
  reads (trace run) = [NAME]
  /\ settlements (before_response (trace run)) = [(key, net key)]
  /\ match net key with
     | Arrived resp =>
         result run = Some (Fulfilled (Some resp))
         /\ entry_of (storage run) NAME key
            = (if (status resp =? 200)%Z && put_accepted key resp
               then Some resp else None)
     | Unreachable _ =>
         result run = Some (Fulfilled None)
         /\ entry_of (storage run) NAME key = None
     end.
Proof.
  intros R E key run. subst run key.
  rewrite dispatch_stale_while_revalidate by exact R.
  unfold swr_run, revalidated, revalidation, network_value, stored, put_events.
  rewrite E.
  destruct (net (url request)) as [resp|e];
    [destruct (status resp =? 200)%Z;
     [destruct (put_accepted (url request) resp)|]|];
    simpl; repeat split; rewrite ?entry_of_open; auto.
  apply entry_of_put_same, has_store_open.
Qed.

(** X9. Stale-while-revalidate, put then match: once the network has
    answered a request with status 200 and the platform's [cache.put] has
    accepted the answer, the next request for the same URL routed to
    stale-while-revalidate is answered with that response, whatever the
    network does then. *)
Theorem revalidated_response_served_next
        (script : Script) (request next : Request) (net later : Network)
        (s : CacheStorage) (resp : Response) :
  classify script request = StaleWhileRevalidate ->
  net (url request) = Arrived resp ->
  status resp = 200%Z ->
  put_accepted (url request) resp = true ->
  classify script next = StaleWhileRevalidate ->
  url next = url request ->
  let run := dispatch (listener script) net request s in
  result (dispatch (listener script) later next (storage run))
  = Some (Fulfilled (Some resp)).
Proof.
  intros R N S A R' U run.
  assert (E : entry_of (storage run) NAME (url next) = Some resp).
  { subst run. rewrite U, dispatch_stale_while_revalidate by exact R.
    unfold swr_run, revalidated, stored. rewrite N, S, A. simpl.
    destruct (entry_of s NAME (url request)); simpl;
      apply entry_of_put_same, has_store_open. }
  rewrite dispatch_stale_while_revalidate by exact R'.
  unfold swr_run. now rewrite E.
Qed.

(** X10. A fetch event changes no entry but the one of its own URL: in
    every store, the entry of any other key is after the event what it was
    before, under both scripts and on every route. *)
Theorem other_entries_untouched
        (script : Script) (request : Request) (net : Network)
        (s : CacheStorage) (name : string) (key : URL) :
  key <> url request ->
  entry_of (storage (dispatch (listener script) net request s)) name key
  = entry_of s name key.
Proof.
  intros N. assert (N' : url request <> key) by congruence.
  destruct (classify script request) eqn:R.
  - now rewrite dispatch_pass_through.
  - assert (script = sw_js) as -> by exact (classify_cache_first_script _ _ R).
    rewrite dispatch_cache_first by exact R. unfold cache_first_run.
    destruct (first_entry s (url request)); [reflexivity|].
    destruct (net (url request)); [|reflexivity]. simpl.
    rewrite entry_of_stored_other by exact N'. apply entry_of_open.
  - assert (script = part_000) as ->
      by exact (proj1 (classify_app_shell_script _ _ R)).
    rewrite dispatch_app_shell by exact R. unfold cache_or_network_run.
    destruct (first_entry s index); [|destruct (net index)]; reflexivity.
  - rewrite dispatch_stale_while_revalidate by exact R.
    unfold swr_run, revalidated.
    destruct (entry_of s NAME (url request));
      (destruct (net (url request)) as [resp|e];
       [destruct (status resp =? 200)%Z|]); simpl;
      rewrite ?entry_of_stored_other by exact N'; apply entry_of_open.
  - rewrite dispatch_network_fallback by exact R. unfold cache_or_network_run.
    destruct (first_entry s (url request)); [|destruct (net (url request))];
      reflexivity.
Qed.

(** X11. What a fetch event writes.  Cache-first puts the network's
    answer, whatever its status, when no store had an entry;
    stale-while-revalidate puts the network's answer when its status is
    200, whether or not there was an entry; the other routes put nothing.
    A put is always of one entry, in the active store, under the URL of the
    request.  It is written when the platform's [cache.put] accepts it,
    and otherwise refused, with nothing written. *)
Theorem writes_of_a_fetch_event
        (script : Script) (request : Request) (net : Network)
        (s : CacheStorage) :
  let key := url request in
  let run := dispatch (listener script) net request s in
  let put :=
    match classify script request, net key with
    | CacheFirst, Arrived resp =>
        match first_entry s key with
        | Some _ => []
        | None => [(NAME, key, resp)]
        end
    | StaleWhileRevalidate, Arrived resp =>
        if (status resp =? 200)%Z then [(NAME, key, resp)] else []
    | _, _ => []
    end in
  writes (trace run)
  = filter (fun w => put_accepted (snd (fst w)) (snd w)) put
  /\ refusals (trace run)
     = filter (fun w => negb (put_accepted (snd (fst w)) (snd w))) put.
Proof.
  intros key run put. subst key run put.
  destruct (classify script request) eqn:R.
  - rewrite dispatch_pass_through by exact R.
    destruct (net (url request)); split; reflexivity.
  - assert (script = sw_js) as -> by exact (classify_cache_first_script _ _ R).
    rewrite dispatch_cache_first by exact R.
    unfold cache_first_run, put_events.
    destruct (first_entry s (url request));
      (destruct (net (url request)) as [resp|e];
       [try destruct (put_accepted (url request) resp) eqn:A|]);
      simpl; rewrite ?refusals_app, ?refusals_lookups; trace_obs;
      rewrite ?A; split; reflexivity.
  - assert (script = part_000) as ->
      by exact (proj1 (classify_app_shell_script _ _ R)).
    rewrite dispatch_app_shell by exact R. unfold cache_or_network_run.
    destruct (first_entry s index); [|destruct (net index)];
      simpl; rewrite ?refusals_app, ?refusals_lookups; trace_obs;
      destruct (net (url request)); split; reflexivity.
  - rewrite dispatch_stale_while_revalidate by exact R.
    unfold swr_run, revalidation, put_events.
    destruct (entry_of s NAME (url request));
      (destruct (net (url request)) as [resp|e];
       [destruct (status resp =? 200)%Z;
        [destruct (put_accepted (url request) resp) eqn:A|]|]);
      simpl; rewrite ?A; split; reflexivity.
  - rewrite dispatch_network_fallback by exact R. unfold cache_or_network_run.
    destruct (first_entry s (url request)); [|destruct (net (url request))];
      simpl; rewrite ?refusals_app, ?refusals_lookups; trace_obs;
      split; try reflexivity; destruct (net (url request)); reflexivity.
Qed.

(** X12. Both listeners call [event.respondWith] exactly for the GET
    requests, cross-origin ones included, and what they hand to it takes
    effect exactly once: a request is left to the browser if and only if
    its method is not GET. *)
Theorem every_get_is_answered_once
        (script : Script) (request : Request) (net : Network)
        (s : CacheStorage) :
  let run := dispatch (listener script) net request s in
  (result run = None <-> method request <> "GET")
  /\ responses (trace run)
     = match result run with
       | Some v => [v]
       | None => []
       end.
Proof.
  intros run. subst run. rewrite <- (classify_get script request).
  assert (L : forall k t, responses (lookups k t) = []).
  { intros k t. induction t as [|[n c] t IH]; simpl; [reflexivity|].
    destruct (entry_match c k); [reflexivity | exact IH]. }
  assert (A : forall t u, responses (t ++ u) = responses t ++ responses u).
  { intros t u. induction t as [|e t IH]; simpl; [reflexivity|].
    destruct e; simpl; congruence. }
  destruct (classify script request) eqn:R.
  - rewrite dispatch_pass_through by exact R. simpl. tauto.
  - assert (script = sw_js) as -> by exact (classify_cache_first_script _ _ R).
    rewrite dispatch_cache_first by exact R.
    unfold cache_first_run, put_events.
    destruct (first_entry s (url request));
      [|destruct (net (url request)) as [resp|e];
        [destruct (put_accepted (url request) resp)|]];
      simpl; rewrite A, L; simpl; (split; [split; discriminate | reflexivity]).
  - assert (script = part_000) as ->
      by exact (proj1 (classify_app_shell_script _ _ R)).
    rewrite dispatch_app_shell by exact R. unfold cache_or_network_run.
    destruct (first_entry s index); [|destruct (net index)];
      simpl; rewrite A, L; simpl; (split; [split; discriminate | reflexivity]).
  - rewrite dispatch_stale_while_revalidate by exact R.
    unfold swr_run, revalidation, network_value, put_events.
    destruct (entry_of s NAME (url request));
      (destruct (net (url request)) as [resp|e];
       [destruct (status resp =? 200)%Z;
        [destruct (put_accepted (url request) resp)|]|]); simpl;
      (split; [split; discriminate | reflexivity]).
  - rewrite dispatch_network_fallback by exact R. unfold cache_or_network_run.
    destruct (first_entry s (url request)); [|destruct (net (url request))];
      simpl; rewrite A, L; simpl; (split; [split; discriminate | reflexivity]).
Qed.

(** X13. A GET request fails for the page only when the network is
    unreachable: when the network answers every URL, with whatever status,
    the page is served a response, under both scripts and on every
    route. *)
Theorem reachable_network_always_serves
        (script : Script) (request : Request) (net : Network)
        (s : CacheStorage) :
  method request = "GET" ->
  (forall key, exists resp, net key = Arrived resp) ->
  exists r,
    page_result (result (dispatch (listener script) net request s)) = Served r.
Proof.
  intros G Up. destruct (classify script request) eqn:R.
  - apply classify_get in R. contradiction.
  - assert (script = sw_js) as -> by exact (classify_cache_first_script _ _ R).
    rewrite dispatch_cache_first by exact R. unfold cache_first_run.
    destruct (Up (url request)) as [resp ->].
    destruct (first_entry s (url request)); simpl; eauto.
  - assert (script = part_000) as ->
      by exact (proj1 (classify_app_shell_script _ _ R)).
    rewrite dispatch_app_shell by exact R. unfold cache_or_network_run.
    destruct (Up index) as [resp ->].
    destruct (first_entry s index); simpl; eauto.
  - rewrite dispatch_stale_while_revalidate by exact R.
    unfold swr_run, network_value.
    destruct (Up (url request)) as [resp ->].
    destruct (entry_of s NAME (url request)); simpl; eauto.
  - rewrite dispatch_network_fallback by exact R. unfold cache_or_network_run.
    destruct (Up (url request)) as [resp ->].
    destruct (first_entry s (url request)); simpl; eauto.
Qed.

(** X14. A fetch event asks the network at most once, and for the URL of
    the request, or for ['/index.html'] when it is a navigation under
    [src/unnamed/part_000].  Stale-while-revalidate always asks, also
    when it answers from the store; the other routes ask only on a miss. *)
Theorem network_asked_at_most_once
        (script : Script) (request : Request) (net : Network)
        (s : CacheStorage) :
  let run := dispatch (listener script) net request s in
  fetches (trace run)
  = match classify script request with
    | PassThrough => []
    | StaleWhileRevalidate => [url request]
    | AppShell =>
        match first_entry s index with Some _ => [] | None => [index] end
    | CacheFirst | NetworkFallback =>
        match first_entry s (url request) with
        | Some _ => []
        | None => [url request]
        end
    end.
Proof.
  intros run. subst run. destruct (classify script request) eqn:R.
  - now rewrite dispatch_pass_through.
  - assert (script = sw_js) as -> by exact (classify_cache_first_script _ _ R).
    rewrite dispatch_cache_first by exact R.
    unfold cache_first_run, put_events.
    destruct (first_entry s (url request));
      [|destruct (net (url request)) as [resp|e];
        [destruct (put_accepted (url request) resp)|]];
      simpl; trace_obs; reflexivity.
  - assert (script = part_000) as ->
      by exact (proj1 (classify_app_shell_script _ _ R)).
    rewrite dispatch_app_shell by exact R. unfold cache_or_network_run.
    destruct (first_entry s index); [|destruct (net index)];
      simpl; trace_obs; reflexivity.
  - rewrite dispatch_stale_while_revalidate by exact R.
    unfold swr_run, revalidation, put_events.
    destruct (entry_of s NAME (url request));
      (destruct (net (url request)) as [resp|e];
       [destruct (status resp =? 200)%Z;
        [destruct (put_accepted (url request) resp)|]|]); reflexivity.
  - rewrite dispatch_network_fallback by exact R. unfold cache_or_network_run.
    destruct (first_entry s (url request)); [|destruct (net (url request))];
      simpl; trace_obs; reflexivity.
Qed.

(** X15. Navigations, offline.  [src/sw.js] does intercept a navigation:
    it takes the default route on the URL of the page itself, so with the
    network unreachable and no entry for that URL the navigation fails
    with the network's error, even when the entry point document is in the
    store; [src/unnamed/part_000] answers the same navigation with the
    stored document. *)
Theorem offline_navigation_differs
        (request : Request) (net : Network) (s : CacheStorage)
        (shell : Response) (reason : Error) :
  method request = "GET" ->
  mode request = "navigate" ->
  is_style request = false ->
  is_image request = false ->
  first_entry s (url request) = None ->
  first_entry s index = Some shell ->
  net (url request) = Unreachable reason ->
  result (dispatch (listener sw_js) net request s) = Some (Rejected reason)
  /\ result (dispatch (listener part_000) net request s)
     = Some (Fulfilled (Some shell)).
Proof.
  intros G N S I F Fi U. split.
  - rewrite dispatch_network_fallback
      by (unfold classify; now rewrite G, S, I).
    unfold cache_or_network_run. now rewrite F, U.
  - rewrite dispatch_app_shell by (unfold classify; now rewrite G, N).
    unfold cache_or_network_run. now rewrite Fi.
Qed.

End Listeners.

(** ** The string tests of the router *)

Lemma substring_all (s : string) : substring 0 (String.length s) s = s.
Proof. induction s as [|a s IH]; simpl; [reflexivity | now rewrite IH]. Qed.

Lemma substring_skip (p t : string) (m : nat) :
  substring (String.length p) m (p ++ t)%string = substring 0 m t.
Proof. induction p as [|a p IH]; simpl; [reflexivity | exact IH]. Qed.

Lemma substring_split (s : string) (n : nat) :
  (n <= String.length s)%nat ->
  s = (substring 0 n s ++ substring n (String.length s - n) s)%string.
Proof.
  revert n. induction s as [|a s IH]; intros [|n] L; simpl in *.
  - reflexivity.
  - lia.
  - now rewrite substring_all.
  - f_equal. apply IH. lia.
Qed.

Lemma length_app (p t : string) :
  String.length (p ++ t)%string = (String.length p + String.length t)%nat.
Proof. induction p as [|a p IH]; simpl; [reflexivity | now rewrite IH]. Qed.

Lemma endsWith_iff (s suffix : string) :
  endsWith s suffix = true <-> exists stem, s = (stem ++ suffix)%string.
Proof.
  unfold endsWith. rewrite andb_true_iff, Nat.leb_le, String.eqb_eq. split.
  - intros [L E].
    exists (substring 0 (String.length s - String.length suffix) s).
    pose proof (substring_split s (String.length s - String.length suffix)) as H.
    replace (String.length s - (String.length s - String.length suffix))%nat
      with (String.length suffix) in H by lia.
    rewrite E in H. apply H. lia.
  - intros [stem ->]. rewrite length_app. split; [lia|].
    replace (String.length stem + String.length suffix - String.length suffix)%nat
      with (String.length stem) by lia.
    rewrite substring_skip. apply substring_all.
Qed.

Lemma startsWith_iff (s p : string) :
  startsWith s p = true <-> exists rest, s = (p ++ rest)%string.
Proof.
  unfold startsWith. revert s. induction p as [|a p IH]; intros s; simpl.
  - split; [now exists s | intros _; destruct s; reflexivity].
  - destruct s as [|b s].
    + split; [discriminate | intros [rest E]; discriminate E].
    + simpl. destruct (ascii_dec a b) as [<-|N].
      * rewrite IH. split; intros [rest E]; exists rest;
          [now rewrite E | now inversion E].
      * split; [discriminate|]. intros [rest E]. inversion E. congruence.
Qed.

(** X16. The stylesheet test of [src/sw.js]: a request is treated as a
    stylesheet exactly when its path ends with [.css], or its declared
    destination is [style]; the query string and the origin play no part. *)
Theorem is_style_iff (request : Request) :
  is_style request = true <->
  (exists stem, pathname (url request) = (stem ++ ".css")%string)
  \/ destination request = "style".
Proof.
  unfold is_style. now rewrite orb_true_iff, endsWith_iff, String.eqb_eq.
Qed.

(** X17. The image test of both scripts: a request is treated as an image
    exactly when its path begins with [/assets/media], or ends with a dot
    followed by one of [png], [jpg], [jpeg], [webp], [svg], in lower
    case. *)
Theorem is_image_iff (request : Request) :
  is_image request = true <->
  (exists rest, pathname (url request) = ("/assets/media" ++ rest)%string)
  \/ (exists stem ext,
        In ext ["png"; "jpg"; "jpeg"; "webp"; "svg"]
        /\ pathname (url request) = (stem ++ "." ++ ext)%string).
Proof.
  unfold is_image, image_extension_test.
  rewrite orb_true_iff, startsWith_iff, existsb_exists.
  split; (intros [H | H]; [now left | right]).
  - destruct H as (ext & I & E). apply endsWith_iff in E.
    destruct E as [stem E]. now exists stem, ext.
  - destruct H as (stem & ext & I & E). exists ext. split; [exact I|].
    apply endsWith_iff. now exists stem.
Qed.

(** ** Unique names, unique keys *)

Lemma entry_put_unique (key : URL) (r : Response) (c : Cache) :
  NoDup (map fst c) -> NoDup (map fst (entry_put key r c)).
Proof.
  intros D. unfold entry_put. rewrite map_app. simpl.
  assert (F : map fst (filter (fun e => negb (URL_eqb (fst e) key)) c)
              = filter (fun k => negb (URL_eqb k key)) (map fst c)).
  { clear. induction c as [|[k r'] c IH]; simpl; [reflexivity|].
    destruct (URL_eqb k key); simpl; now rewrite IH. }
  rewrite F. apply NoDup_app.
  - now apply NoDup_filter.
  - repeat constructor. intros [].
  - intros x I [<- | []]. apply filter_In in I.
    rewrite URL_eqb_refl in I. destruct I. discriminate.
Qed.

Lemma populate_unique (batch : list (URL * Response)) (c : Cache) :
  NoDup (map fst c) ->
  NoDup (map fst (fold_left (fun c e => entry_put (fst e) (snd e) c) batch c)).
Proof.
  revert c. induction batch as [|e batch IH]; intros c D; simpl; [exact D|].
  apply IH. now apply entry_put_unique.
Qed.

Lemma keys_unique_open (s : CacheStorage) (name : string) :
  keys_unique s -> keys_unique (open_or_create s name).
Proof.
  unfold keys_unique, open_or_create. intros K n c I.
  destruct (has_store s name); [now apply (K n)|].
  apply in_app_iff in I. destruct I as [I | [I | []]]; [now apply (K n)|].
  inversion I. constructor.
Qed.

Lemma keys_unique_update (s : CacheStorage) (name : string) f :
  (forall c, NoDup (map fst c) -> NoDup (map fst (f c))) ->
  keys_unique s -> keys_unique (store_update s name f).
Proof.
  unfold keys_unique. intros F K.
  induction s as [|[n c] s IH]; simpl; intros n' c' I; [destruct I|].
  destruct (String.eqb n name).
  - destruct I as [I | I].
    + inversion I; subst. apply F. apply (K n'). now left.
    + apply (K n'). now right.
  - destruct I as [I | I].
    + inversion I; subst. apply (K n'). now left.
    + apply (IH (fun n0 c0 J => K n0 c0 (or_intror J)) n' c' I).
Qed.

Lemma keys_unique_filter (s : CacheStorage) g :
  keys_unique s -> keys_unique (filter g s).
Proof.
  unfold keys_unique. intros K n c I. apply filter_In in I. now apply (K n).
Qed.

Lemma wf_filter_name (s : CacheStorage) (name : string) :
  wf s -> wf (filter (fun p => String.eqb (fst p) name) s).
Proof.
  unfold wf, store_names. intros W.
  assert (F : map fst (filter (fun p => String.eqb (fst p) name) s)
              = filter (fun n => String.eqb n name) (map fst s)).
  { clear. induction s as [|[n c] s IH]; simpl; [reflexivity|].
    destruct (String.eqb n name); simpl; now rewrite IH. }
  rewrite F. now apply NoDup_filter.
Qed.

Lemma wf_update (s : CacheStorage) (name : string) f :
  wf s -> wf (store_update s name f).
Proof. unfold wf. now rewrite store_names_update. Qed.

Section Invariant.

Variables CACHE_VERSION scope : string.
Variable CORE_ASSETS : list string.

Local Abbreviation NAME := (CACHE_NAME CACHE_VERSION).

(** X18. Every listener keeps the storage in order: when store names are
    unique and every store has at most one entry per key, this is still so
    after an install (whether it succeeds or fails), after an activation,
    and after any fetch event of either script. *)
Theorem listeners_keep_names_and_keys_unique
        (script : Script) (request : Request) (net : Network)
        (s : CacheStorage) :
  wf s ->
  keys_unique s ->
  let installed :=
    storage (install_listener CACHE_VERSION scope CORE_ASSETS net s) in
  let activated := storage (activate_listener CACHE_VERSION s) in
  let served :=
    storage (dispatch (fetch_listener CACHE_VERSION scope script)
                      net request s) in
  (wf installed /\ keys_unique installed)
  /\ (wf activated /\ keys_unique activated)
  /\ (wf served /\ keys_unique served).
Proof.
  intros W K installed activated served.
  assert (P : forall key r,
            wf (store_update (open_or_create s NAME) NAME (entry_put key r))
            /\ keys_unique
                 (store_update (open_or_create s NAME) NAME (entry_put key r))).
  { intros key r. split.
    - now apply wf_update, wf_open.
    - apply keys_unique_update; [apply entry_put_unique|].
      now apply keys_unique_open. }
  assert (O : wf (open_or_create s NAME) /\ keys_unique (open_or_create s NAME))
    by (split; [now apply wf_open | now apply keys_unique_open]).
  split; [|split].
  - subst installed. rewrite install_run. unfold cache_addAll.
    destruct (fetched_all _); cbn [storage]; [|exact O]. split.
    + now apply wf_update, wf_open.
    + apply keys_unique_update; [intros c; apply populate_unique|].
      now apply keys_unique_open.
  - subst activated. rewrite activate_storage. split.
    + now apply wf_filter_name.
    + now apply keys_unique_filter.
  - subst served. destruct (classify script request) eqn:R.
    + rewrite dispatch_pass_through by exact R. now split.
    + assert (script = sw_js) as -> by exact (classify_cache_first_script _ _ R).
      rewrite dispatch_cache_first by exact R. unfold cache_first_run, stored.
      destruct (first_entry s (url request)); [now split|].
      destruct (net (url request)) as [resp|e]; [|now split].
      destruct (put_accepted (url request) resp); cbn [storage];
        first [apply P | exact O].
    + assert (script = part_000) as ->
        by exact (proj1 (classify_app_shell_script _ _ R)).
      rewrite dispatch_app_shell by exact R. unfold cache_or_network_run.
      destruct (first_entry s _); [|destruct (net _)]; now split.
    + rewrite dispatch_stale_while_revalidate by exact R.
      unfold swr_run, revalidated, stored.
      destruct (entry_of s NAME (url request));
        (destruct (net (url request)) as [resp|e];
         [destruct (status resp =? 200)%Z;
          [destruct (put_accepted (url request) resp)|]|]); cbn [storage];
        first [apply P | exact O].
    + rewrite dispatch_network_fallback by exact R.
      unfold cache_or_network_run.
      destruct (first_entry s _); [|destruct (net _)]; now split.
Qed.

End Invariant.

(** ** Concrete runs of the further properties *)

Lemma install_populates_manifest_witness :
  let run := install_listener SwJs.CACHE_VERSION Sample.site SwJs.CORE_ASSETS
                              Sample.online [] in
  (forall path, In path SwJs.CORE_ASSETS ->
                fetchable Sample.online (resolve Sample.site path) = true)
  /\ result run = Fulfilled tt
  /\ fetches (trace run) = map (resolve Sample.site) SwJs.CORE_ASSETS.
Proof.
  intros run.
  assert (F : forall path, In path SwJs.CORE_ASSETS ->
              fetchable Sample.online (resolve Sample.site path) = true)
    by (intros path _; reflexivity).
  split; [exact F|].
  destruct (install_populates_manifest SwJs.CACHE_VERSION Sample.site
              SwJs.CORE_ASSETS Sample.online [] F) as [A [B _]].
  split; [exact A | exact B].
Defined.

Lemma install_touches_only_manifest_witness :
  let s := [("oha-v1", [(url Sample.photo, Sample.stale)])] in
  let run := install_listener SwJs.CACHE_VERSION Sample.site SwJs.CORE_ASSETS
                              Sample.online s in
  "oha-v1" <> CACHE_NAME SwJs.CACHE_VERSION
  /\ store_find (storage run) "oha-v1" = store_find s "oha-v1".
Proof.
  intros s run.
  assert (N : "oha-v1" <> CACHE_NAME SwJs.CACHE_VERSION)
    by (apply String.eqb_neq; reflexivity).
  split; [exact N|].
  destruct (install_touches_only_manifest SwJs.CACHE_VERSION Sample.site
              SwJs.CORE_ASSETS Sample.online s) as [_ [_ [_ [A _]]]].
  exact (A "oha-v1" N).
Defined.

Lemma activation_only_deletes_other_stores_witness :
  let s := [("oha-v1", []); (CACHE_NAME SwJs.CACHE_VERSION, []); ("fonts", [])] in
  wf s
  /\ result (activate_listener SwJs.CACHE_VERSION s) = Fulfilled [true; true].
Proof.
  intros s.
  assert (W : wf s).
  { unfold wf. simpl. repeat constructor; simpl; intuition discriminate. }
  split; [exact W|].
  exact (proj2 (activation_only_deletes_other_stores SwJs.CACHE_VERSION s) W).
Defined.

Lemma activation_is_idempotent_witness :
  let s := [(CACHE_NAME SwJs.CACHE_VERSION, [(url Sample.photo, Sample.stale)])] in
  store_names s = [CACHE_NAME SwJs.CACHE_VERSION]
  /\ storage (activate_listener SwJs.CACHE_VERSION s) = s.
Proof.
  intros s.
  assert (E : store_names s = [CACHE_NAME SwJs.CACHE_VERSION]) by reflexivity.
  split; [exact E|].
  exact (proj2 (proj2 (activation_is_idempotent SwJs.CACHE_VERSION s)) E).
Defined.



Lemma scripts_agree_off_styles_and_navigations_witness :
  is_style Sample.photo = false
  /\ mode Sample.photo <> "navigate"
  /\ dispatch (fetch_listener SwJs.CACHE_VERSION Sample.site sw_js)
              Sample.online Sample.photo []
     = dispatch (fetch_listener SwJs.CACHE_VERSION Sample.site part_000)
                Sample.online Sample.photo [].
Proof.
  assert (S : is_style Sample.photo = false) by reflexivity.
  assert (N : mode Sample.photo <> "navigate")
    by (apply String.eqb_neq; reflexivity).
  split; [exact S|]. split; [exact N|].
  exact (scripts_agree_off_styles_and_navigations SwJs.CACHE_VERSION
           Sample.site Sample.photo Sample.online [] S N).
Defined.

Lemma revalidation_miss_waits_for_network_witness :
  let s := [("oha-v1", [(url Sample.photo, Sample.stale)])] in
  let run := dispatch (deployed sw_js) Sample.not_found Sample.photo s in
  classify sw_js Sample.photo = StaleWhileRevalidate
  /\ entry_of s (CACHE_NAME SwJs.CACHE_VERSION) (url Sample.photo) = None
  /\ result run = Some (Fulfilled (Some Sample.missing))
  /\ entry_of (storage run) (CACHE_NAME SwJs.CACHE_VERSION) (url Sample.photo)
     = None.
Proof.
  intros s run.
  assert (R : classify sw_js Sample.photo = StaleWhileRevalidate) by reflexivity.
  assert (E : entry_of s (CACHE_NAME SwJs.CACHE_VERSION) (url Sample.photo)
              = None) by reflexivity.
  split; [exact R|]. split; [exact E|].
  pose proof (revalidation_miss_waits_for_network SwJs.CACHE_VERSION
                Sample.site sw_js Sample.photo Sample.not_found s R E) as T.
  simpl in T. destruct T as [_ [_ T]]. exact T.
Defined.

Lemma revalidated_response_served_next_witness :
  let run := dispatch (deployed sw_js) Sample.online Sample.photo [] in
  classify sw_js Sample.photo = StaleWhileRevalidate
  /\ Sample.online (url Sample.photo) = Arrived Sample.fresh
  /\ status Sample.fresh = 200%Z
  /\ put_accepted (url Sample.photo) Sample.fresh = true
  /\ url Sample.photo = url Sample.photo
  /\ result (dispatch (deployed sw_js) Sample.offline Sample.photo
                      (storage run))
     = Some (Fulfilled (Some Sample.fresh)).
Proof.
  intros run.
  assert (R : classify sw_js Sample.photo = StaleWhileRevalidate) by reflexivity.
  assert (N : Sample.online (url Sample.photo) = Arrived Sample.fresh)
    by reflexivity.
  assert (S : status Sample.fresh = 200%Z) by reflexivity.
  assert (A : put_accepted (url Sample.photo) Sample.fresh = true)
    by reflexivity.
  assert (U : url Sample.photo = url Sample.photo) by reflexivity.
  repeat (split; [assumption|]).
  exact (revalidated_response_served_next SwJs.CACHE_VERSION Sample.site sw_js
           Sample.photo Sample.photo Sample.online Sample.offline []
           Sample.fresh R N S A R U).
Defined.

Lemma other_entries_untouched_witness :
  let active := CACHE_NAME SwJs.CACHE_VERSION in
  let s := [(active, [(url Sample.stylesheet, Sample.stale)])] in
  url Sample.stylesheet <> url Sample.photo
  /\ entry_of (storage (dispatch (deployed sw_js) Sample.online Sample.photo s))
              active (url Sample.stylesheet)
     = Some Sample.stale.
Proof.
  intros active s.
  assert (N : url Sample.stylesheet <> url Sample.photo)
    by (apply URL_eqb_neq; reflexivity).
  split; [exact N|].
  exact (other_entries_untouched SwJs.CACHE_VERSION Sample.site sw_js
           Sample.photo Sample.online s active (url Sample.stylesheet) N).
Defined.

Lemma reachable_network_always_serves_witness :
  method Sample.page_json = "GET"
  /\ (forall key, exists resp, Sample.not_found key = Arrived resp)
  /\ exists r,
       page_result (result (dispatch (deployed sw_js) Sample.not_found
                                     Sample.page_json []))
       = Served r.
Proof.
  assert (G : method Sample.page_json = "GET") by reflexivity.
  assert (Up : forall key, exists resp, Sample.not_found key = Arrived resp)
    by (intros key; exists Sample.missing; reflexivity).
  split; [exact G|]. split; [exact Up|].
  exact (reachable_network_always_serves SwJs.CACHE_VERSION Sample.site sw_js
           Sample.page_json Sample.not_found [] G Up).
Defined.

Lemma offline_navigation_differs_witness :
  let index := resolve Sample.site "/index.html" in
  let s := [(CACHE_NAME SwJs.CACHE_VERSION, [(index, Sample.stale)])] in
  method Sample.navigation = "GET"
  /\ mode Sample.navigation = "navigate"
  /\ is_style Sample.navigation = false
  /\ is_image Sample.navigation = false
  /\ first_entry s (url Sample.navigation) = None
  /\ first_entry s index = Some Sample.stale
  /\ Sample.offline (url Sample.navigation) = Unreachable Sample.failure
  /\ result (dispatch (fetch_listener SwJs.CACHE_VERSION Sample.site sw_js)
                      Sample.offline Sample.navigation s)
     = Some (Rejected Sample.failure)
  /\ result (dispatch (fetch_listener SwJs.CACHE_VERSION Sample.site part_000)
                      Sample.offline Sample.navigation s)
     = Some (Fulfilled (Some Sample.stale)).
Proof.
  intros index s.
  assert (G : method Sample.navigation = "GET") by reflexivity.
  assert (N : mode Sample.navigation = "navigate") by reflexivity.
  assert (S : is_style Sample.navigation = false) by reflexivity.
  assert (I : is_image Sample.navigation = false) by reflexivity.
  assert (F : first_entry s (url Sample.navigation) = None) by reflexivity.
  assert (Fi : first_entry s index = Some Sample.stale) by reflexivity.
  assert (U : Sample.offline (url Sample.navigation)
              = Unreachable Sample.failure) by reflexivity.
  repeat (split; [assumption|]).
  exact (offline_navigation_differs SwJs.CACHE_VERSION Sample.site
           Sample.navigation Sample.offline s Sample.stale Sample.failure
           G N S I F Fi U).
Defined.

Lemma listeners_keep_names_and_keys_unique_witness :
  let s := [("oha-v1", [(url Sample.photo, Sample.stale)])] in
  wf s
  /\ keys_unique s
  /\ wf (storage (dispatch (deployed sw_js) Sample.online Sample.photo s))
  /\ keys_unique
       (storage (dispatch (deployed sw_js) Sample.online Sample.photo s)).
Proof.
  intros s.
  assert (W : wf s).
  { unfold wf. simpl. constructor; [intros [] | constructor]. }
  assert (K : keys_unique s).
  { intros n c [E | []]. inversion E. simpl.
    constructor; [intros [] | constructor]. }
  split; [exact W|]. split; [exact K|].
  exact (proj2 (proj2 (listeners_keep_names_and_keys_unique
                         SwJs.CACHE_VERSION Sample.site SwJs.CORE_ASSETS
                         sw_js Sample.photo Sample.online s W K))).
Defined.

(** ** Any traffic *)

(** The storage a fetch event leaves is the storage it found, possibly
    with the active store opened, possibly with the entry of the request
    put in it. *)
Lemma dispatch_storage_shape (version scope : string) (script : Script)
      (request : Request) (net : Network) (s : CacheStorage) :
  let after :=
    storage (dispatch (fetch_listener version scope script) net request s) in
  after = s
  \/ after = open_or_create s (CACHE_NAME version)
  \/ exists resp,
       after = store_update (open_or_create s (CACHE_NAME version))
                            (CACHE_NAME version)
                            (entry_put (url request) resp).
Proof.
  intros after. subst after. destruct (classify script request) eqn:R.
  - rewrite dispatch_pass_through by exact R. now left.
  - assert (script = sw_js) as -> by exact (classify_cache_first_script _ _ R).
    rewrite dispatch_cache_first by exact R. unfold cache_first_run, stored.
    destruct (first_entry s (url request)); [now left|].
    destruct (net (url request)) as [resp|e]; [|now left].
    destruct (put_accepted (url request) resp); cbn [storage];
      [right; right; now exists resp | right; left; reflexivity].
  - assert (script = part_000) as ->
      by exact (proj1 (classify_app_shell_script _ _ R)).
    rewrite dispatch_app_shell by exact R. unfold cache_or_network_run.
    destruct (first_entry s _); [|destruct (net _)]; now left.
  - rewrite dispatch_stale_while_revalidate by exact R.
    unfold swr_run, revalidated, stored.
    destruct (entry_of s (CACHE_NAME version) (url request));
      (destruct (net (url request)) as [resp|e];
       [destruct (status resp =? 200)%Z;
        [destruct (put_accepted (url request) resp)|]|]); cbn [storage];
      first [ right; left; reflexivity | right; right; now exists resp ].
  - rewrite dispatch_network_fallback by exact R. unfold cache_or_network_run.
    destruct (first_entry s _); [|destruct (net _)]; now left.
Qed.

Lemma entry_kept_by_put (s : CacheStorage) (name n : string) (k key : URL)
      (r : Response) :
  entry_of s n key <> None ->
  entry_of (store_update s name (entry_put k r)) n key <> None.
Proof.
  intros H. destruct (URL_eqb k key) eqn:E.
  - apply URL_eqb_eq in E. subst k. unfold entry_of in *.
    destruct (String.eqb n name) eqn:N.
    + apply String.eqb_eq in N. subst n. rewrite store_find_update_same.
      destruct (store_find s name); simpl; [|exact H].
      now rewrite entry_match_put_same.
    + apply String.eqb_neq in N. now rewrite store_find_update_other.
  - apply URL_eqb_neq in E. now rewrite entry_of_put_other_key.
Qed.

Section Traffic.

Variables CACHE_VERSION scope : string.

Local Abbreviation NAME := (CACHE_NAME CACHE_VERSION).
Local Abbreviation listener := (fetch_listener CACHE_VERSION scope).

(** X19. Whatever requests arrive, in whatever order and with whatever
    network, the fetch listener of either script leaves every store other
    than the active one exactly as it was, and removes no entry from any
    store: a key that had an entry still has one. *)
Theorem traffic_keeps_other_stores_and_entries
        (script : Script) (events : list (Network * Request))
        (s : CacheStorage) :
  let after := storage (dispatch_all (listener script) events s) in
  (forall other, other <> NAME -> store_find after other = store_find s other)
  /\ (forall name key, entry_of s name key <> None ->
                       entry_of after name key <> None).
Proof.
  revert s. induction events as [|[net request] events IH]; intros s after;
    subst after.
  - simpl. auto.
  - rewrite dispatch_all_cons. cbn [storage].
    destruct (IH (storage (dispatch (listener script) net request s)))
      as [A B].
    pose proof (dispatch_storage_shape CACHE_VERSION scope script request
                  net s) as Sh. simpl in Sh.
    split.
    + intros other N. rewrite A by exact N.
      destruct Sh as [-> | [-> | [resp ->]]]; [reflexivity| |].
      * now apply store_find_open_other.
      * rewrite store_find_update_other by exact N.
        now apply store_find_open_other.
    + intros name key H. apply B.
      destruct Sh as [-> | [-> | [resp ->]]]; [exact H| |].
      * now rewrite entry_of_open.
      * apply entry_kept_by_put. now rewrite entry_of_open.
Qed.

End Traffic.

Lemma traffic_keeps_other_stores_and_entries_witness :
  let s := [("oha-v1", [(url Sample.photo, Sample.stale)])] in
  let events := [(Sample.online, Sample.photo);
                 (Sample.not_found, Sample.stylesheet);
                 (Sample.offline, Sample.page_json)] in
  "oha-v1" <> CACHE_NAME SwJs.CACHE_VERSION
  /\ store_find (storage (dispatch_all (deployed sw_js) events s)) "oha-v1"
     = store_find s "oha-v1".
Proof.
  intros s events.
  assert (N : "oha-v1" <> CACHE_NAME SwJs.CACHE_VERSION)
    by (apply String.eqb_neq; reflexivity).
  split; [exact N|].
  exact (proj1 (traffic_keeps_other_stores_and_entries SwJs.CACHE_VERSION
                  Sample.site sw_js events s) "oha-v1" N).
Defined.
